(** * guessgame: the slot machine of [src/main.cpp]

    A shallow embedding of class [SlotMachine] and of [main]:
    - the SQLite database file as two tables of rows with their
      AUTOINCREMENT counters, and the six SQL statements of the program as
      functions on it;
    - the process state (database, standard output and error, the entropy
      source, the failures the engine reports) as a record threaded through a
      small state monad whose results also carry [exit] and a failed
      extraction from [std::cin];
    - [double] as IEEE binary64 (Rocq's primitive floats), [int] as [Z] with
      the 32-bit truncation of [sqlite3_column_int] written out. *)

From Stdlib Require Import ZArith String Ascii Bool Lia Floats List.
Import ListNotations.

Set Implicit Arguments.

(** ** Numbers *)

(** C++ [double]. *)
Definition double : Set := float.
Bind Scope float_scope with double.

(** The value a 64-bit SQLite integer takes when read through
    [sqlite3_column_int], which keeps the low 32 bits (two's complement). *)
Definition to_int (z : Z) : Z := ((z + 2 ^ 31) mod 2 ^ 32 - 2 ^ 31)%Z.

(** ** The database *)

Module Store.

(** A row of [players]: (id, name, age, card, balance). *)
Record player := mkPlayer {
  p_id : Z;
  p_name : string;
  p_age : Z;
  p_card : string;
  p_balance : double
}.

(** A row of [spin_history]: (id, player_id, bet, winnings, balance). *)
Record spin := mkSpin {
  h_id : Z;
  h_player_id : Z;
  h_bet : double;
  h_winnings : double;
  h_balance : double
}.

(** A table with an [INTEGER PRIMARY KEY AUTOINCREMENT] column: its rows in
    rowid order and the largest rowid it has ever held. *)
Record table (R : Type) := mkTable {
  rows : list R;
  seq : Z
}.

(** The database file; a table that was never created is [None]. *)
Record database := mkDb {
  players : option (table player);
  spin_history : option (table spin)
}.

Definition empty_db : database := mkDb None None.

(** The statements the program sends, with the values it binds. *)
Inductive stmt :=
| CreatePlayers
| CreateHistory
| SelectPlayer (name : string) (age : Z) (card : string)
| InsertPlayer (name : string) (age : Z) (card : string)
| UpdateBalance (balance : double) (id : Z)
| InsertSpin (player_id : Z) (bet winnings balance : double).

Arguments mkPlayer p_id%_Z p_name%_string p_age%_Z p_card%_string p_balance%_float.
Arguments mkSpin h_id%_Z h_player_id%_Z h_bet%_float h_winnings%_float h_balance%_float.
Arguments SelectPlayer name%_string age%_Z card%_string.
Arguments InsertPlayer name%_string age%_Z card%_string.
Arguments UpdateBalance balance%_float id%_Z.
Arguments InsertSpin player_id%_Z (bet winnings balance)%_float.

(** [WHERE name = ? AND age = ? AND card = ?] *)
Definition matches (name : string) (age : Z) (card : string) (r : player) : bool :=
  String.eqb (p_name r) name && Z.eqb (p_age r) age && String.eqb (p_card r) card.

(** [SET balance = ? WHERE id = ?] on one row. *)
Definition set_balance (balance : double) (id : Z) (r : player) : player :=
  if Z.eqb (p_id r) id
  then mkPlayer (p_id r) (p_name r) (p_age r) (p_card r) balance
  else r.

(** What a statement does to the database and the first column of the row it
    returns, if it returns one. [None]: the statement cannot be prepared
    because its table does not exist. *)
Definition eval (s : stmt) (db : database) : option (database * option Z) :=
  match s with
  | CreatePlayers =>
      Some (mkDb (match players db with
                  | Some t => Some t
                  | None => Some (mkTable [] 0%Z)
                  end) (spin_history db), None)
  | CreateHistory =>
      Some (mkDb (players db)
                 (match spin_history db with
                  | Some t => Some t
                  | None => Some (mkTable [] 0%Z)
                  end), None)
  | SelectPlayer name age card =>
      match players db with
      | None => None
      | Some t => Some (db, option_map p_id (find (matches name age card) (rows t)))
      end
  | InsertPlayer name age card =>
      match players db with
      | None => None
      | Some t =>
          let id := (seq t + 1)%Z in
          Some (mkDb (Some (mkTable (rows t ++ [mkPlayer id name age card 0%float]) id))
                     (spin_history db), None)
      end
  | UpdateBalance balance id =>
      match players db with
      | None => None
      | Some t =>
          Some (mkDb (Some (mkTable (map (set_balance balance id) (rows t)) (seq t)))
                     (spin_history db), None)
      end
  | InsertSpin player_id bet winnings balance =>
      match spin_history db with
      | None => None
      | Some t =>
          let id := (seq t + 1)%Z in
          Some (mkDb (players db)
                     (Some (mkTable (rows t ++ [mkSpin id player_id bet winnings balance]) id)),
                None)
      end
  end.

(** The rows of a table that may be missing. *)
Definition rows_of {R} (t : option (table R)) : list R :=
  match t with Some t => rows t | None => [] end.

Definition player_rows (db : database) : list player := rows_of (players db).
Definition history_rows (db : database) : list spin := rows_of (spin_history db).

(** The row a lookup of the identity triple finds. *)
Definition lookup (db : database) (name : string) (age : Z) (card : string) : option player :=
  find (matches name age card) (player_rows db).

(** The rowid the next insert into [players] gets. *)
Definition next_id (db : database) : Z :=
  match players db with
  | Some t => (seq t + 1)%Z
  | None => 1%Z
  end.

(** Rowids are handed out from 1 upwards and the program reads them back as
    [int]: every id lies below the next one, which still fits an [int]. *)
Definition ids_ok (db : database) : Prop :=
  (1 <= next_id db < 2 ^ 31)%Z /\
  Forall (fun r => 1 <= p_id r < next_id db)%Z (player_rows db).

End Store.

Import Store.

(** ** The process *)

(** SQLite result codes, as far as the program tells them apart. *)
Inductive rc := SQLITE_OK | SQLITE_ROW | SQLITE_DONE | SQLITE_ERROR.

Definition rc_eqb (a b : rc) : bool :=
  match a, b with
  | SQLITE_OK, SQLITE_OK | SQLITE_ROW, SQLITE_ROW
  | SQLITE_DONE, SQLITE_DONE | SQLITE_ERROR, SQLITE_ERROR => true
  | _, _ => false
  end.

(** What is written to a stream with [<<]; [ErrMsg] stands for the message
    text SQLite hands back in [errorMessage]. *)
Inductive item :=
| Str (s : string)
| Chr (c : ascii)
| Dbl (d : double)
| Endl
| ErrMsg.

(** What [>>] extracts from [std::cin] when the extraction succeeds: a word
    for a [std::string], a number in the range of [int] for an [int], one
    character for a [char], a number for a [double]. The model reads input
    that is already cut into such values; it has no characters and no
    parser. *)
Inductive token :=
| TStr (s : string)
| TInt (z : Z)
| TChar (c : ascii)
| TDouble (d : double).

Arguments TStr s%_string.
Arguments TInt z%_Z.
Arguments TChar c%_char.
Arguments TDouble d%_float.
Arguments Str s%_string.
Arguments Chr c%_char.
Arguments Dbl d%_float.

(** The state of the running process and of what it talks to.
    [w_faults] tells, for the n-th call into SQLite, whether the engine
    reports a failure of its own (file cannot be opened, disk full, database
    locked); [w_raw] is what the environment supplies for the n-th value the
    distribution draws;
    [w_trace] lists the statements sent to the engine so far. *)
Record world := mkWorld {
  w_db : database;
  w_faults : nat -> bool;
  w_calls : nat;
  w_raw : nat -> Z;
  w_drawn : nat;
  w_cout : list item;
  w_cerr : list item;
  w_trace : list stmt
}.

Definition with_db (db : database) (w : world) : world :=
  mkWorld db (w_faults w) (w_calls w) (w_raw w) (w_drawn w) (w_cout w) (w_cerr w) (w_trace w).

Definition called (w : world) : world :=
  mkWorld (w_db w) (w_faults w) (S (w_calls w)) (w_raw w) (w_drawn w) (w_cout w) (w_cerr w) (w_trace w).

Definition drew (w : world) : world :=
  mkWorld (w_db w) (w_faults w) (w_calls w) (w_raw w) (S (w_drawn w)) (w_cout w) (w_cerr w) (w_trace w).

Definition wrote (l : list item) (w : world) : world :=
  mkWorld (w_db w) (w_faults w) (w_calls w) (w_raw w) (w_drawn w) (w_cout w ++ l) (w_cerr w) (w_trace w).

Definition complained (l : list item) (w : world) : world :=
  mkWorld (w_db w) (w_faults w) (w_calls w) (w_raw w) (w_drawn w) (w_cout w) (w_cerr w ++ l) (w_trace w).

Definition traced (s : stmt) (w : world) : world :=
  mkWorld (w_db w) (w_faults w) (w_calls w) (w_raw w) (w_drawn w) (w_cout w) (w_cerr w) (w_trace w ++ [s]).

(** How a computation ends: it returns, the process exits, or the input is
    not of the kind the model covers: the next value on [std::cin] is not
    what the extraction asks for, or there is none. The program itself goes
    on in that case (a failed parse stores 0, every later extraction fails and
    leaves its variable as it is); the model does not follow it there, and
    [BadInput] only marks where it stops. The statements about sessions below
    are about input that extracts as the program expects. *)
Inductive result (A : Type) :=
| Ok (a : A)
| Exit (code : Z)
| BadInput.

Arguments Exit {A} code.
Arguments BadInput {A}.

Definition M (A : Type) : Type := world -> result A * world.

Definition ret {A} (a : A) : M A := fun w => (Ok a, w).

Definition bind {A B} (m : M A) (k : A -> M B) : M B :=
  fun w =>
    match m w with
    | (Ok a, w') => k a w'
    | (Exit code, w') => (Exit code, w')
    | (BadInput, w') => (BadInput, w')
    end.

Declare Scope run_scope.
Delimit Scope run_scope with run.
Notation "x <- m ;; k" := (bind m (fun x => k))
  (at level 100, m at next level, right associativity) : run_scope.
Notation "m ;; k" := (bind m (fun _ => k))
  (at level 100, right associativity) : run_scope.
Open Scope run_scope.

Definition exit {A} (code : Z) : M A := fun w => (Exit code, w).
Definition bad_input {A} : M A := fun w => (BadInput, w).
Definition cout (l : list item) : M unit := fun w => (Ok tt, wrote l w).
Definition cerr (l : list item) : M unit := fun w => (Ok tt, complained l w).

(** The engine's own verdict on the next call. *)
Definition fault : M bool := fun w => (Ok (w_faults w (w_calls w)), called w).

(** [sqlite3_open]: the file is opened (and created when missing) unless the
    engine fails. *)
Definition sqlite3_open : M rc :=
  f <- fault ;;
  ret (if f then SQLITE_ERROR else SQLITE_OK).

(** One statement prepared, bound and stepped. A statement that cannot be
    prepared leaves a null handle, on which [sqlite3_step] reports an error.
    The second component is what [sqlite3_column_int (stmt, 0)] reads. *)
Definition sqlite3_step (s : stmt) : M (rc * Z) :=
  f <- fault ;;
  fun w =>
    let w := traced s w in
    if f then (Ok (SQLITE_ERROR, 0%Z), w)
    else
      match eval s (w_db w) with
      | None => (Ok (SQLITE_ERROR, 0%Z), w)
      | Some (db, Some v) => (Ok (SQLITE_ROW, to_int v), with_db db w)
      | Some (db, None) => (Ok (SQLITE_DONE, 0%Z), with_db db w)
      end.

(** [sqlite3_exec] of a statement that returns no rows. *)
Definition sqlite3_exec (s : stmt) : M rc :=
  r <- sqlite3_step s ;;
  ret (if rc_eqb (fst r) SQLITE_DONE then SQLITE_OK else SQLITE_ERROR).

(** What the generator [gen], seeded from [std::random_device], contributes
    to a draw. How the library turns the words of the generator into a value
    is not modelled: the environment supplies the value itself. *)
Definition gen : M Z := fun w => (Ok (w_raw w (w_drawn w)), drew w).

(** [std::uniform_int_distribution<> dist (a, b)] applied to a generator:
    the library returns a value in [a .. b]. A value the environment supplies
    in that range is returned as it is; the reduction only makes the function
    total on values the library never returns. *)
Definition dist (a b : Z) : M Z :=
  r <- gen ;;
  ret (a + r mod (b - a + 1))%Z.

(** ** class SlotMachine *)

Module SlotMachine.

(** [std::map<char, int> symbols], in the order the map iterates its keys. *)
Definition symbols : list (ascii * Z) :=
  [("A"%char, 5%Z); ("B"%char, 4%Z); ("C"%char, 3%Z); ("D"%char, 2%Z)].

Definition executeQuery (query : stmt) : M unit :=
  r <- sqlite3_exec query ;;
  if negb (rc_eqb r SQLITE_OK)
  then cerr [Str "Error executing query: "; ErrMsg; Endl]
  else ret tt.

Definition createTables : M unit :=
  executeQuery CreatePlayers ;;
  executeQuery CreateHistory.

Definition getPlayerID (name : string) (age : Z) (card : string) : M Z :=
  let playerId := (-1)%Z in
  r <- sqlite3_step (SelectPlayer name age card) ;;
  ret (if rc_eqb (fst r) SQLITE_ROW then snd r else playerId).

Definition addPlayer (name : string) (age : Z) (card : string) : M unit :=
  r <- sqlite3_step (InsertPlayer name age card) ;;
  if negb (rc_eqb (fst r) SQLITE_DONE)
  then cerr [Str "Error adding player."; Endl]
  else ret tt.

Definition updateBalance (playerId : Z) (newBalance : double) : M unit :=
  r <- sqlite3_step (UpdateBalance newBalance playerId) ;;
  if negb (rc_eqb (fst r) SQLITE_DONE)
  then cerr [Str "Error updating balance."; Endl]
  else ret tt.

Definition saveSpinHistory (playerId : Z) (bet winnings balance : double) : M unit :=
  r <- sqlite3_step (InsertSpin playerId bet winnings balance) ;;
  if negb (rc_eqb (fst r) SQLITE_DONE)
  then cerr [Str "Error saving spin history."; Endl]
  else ret tt.

(** The key [it] points at after [std::advance (it, n)] from
    [symbols.begin ()]. *)
Definition key_at (n : Z) : ascii :=
  nth (Z.to_nat n) (map fst symbols) Ascii.zero.

(** The inner loop of [getSpinResult]: one row of [n] cells. *)
Fixpoint fill_row (n : nat) : M (list ascii) :=
  match n with
  | O => ret []
  | S n =>
      k <- dist 0 (Z.of_nat (length symbols) - 1) ;;
      rest <- fill_row n ;;
      ret (key_at k :: rest)
  end.

(** The outer loop: [m] rows of [n] cells, filled in row-major order. *)
Fixpoint fill_rows (m n : nat) : M (list (list ascii)) :=
  match m with
  | O => ret []
  | S m =>
      row <- fill_row n ;;
      rest <- fill_rows m n ;;
      ret (row :: rest)
  end.

Definition getSpinResult : M (list (list ascii)) := fill_rows 3 3.

Definition displaySpinResult (result : list (list ascii)) : M unit :=
  cout (concat (map (fun row => concat (map (fun symbol => [Chr symbol; Str " "]) row) ++ [Endl])
                    result)).

(** The constructor. *)
Definition init : M unit :=
  r <- sqlite3_open ;;
  if negb (rc_eqb r SQLITE_OK)
  then cerr [Str "Error opening database."; Endl] ;; exit 1
  else createTables.

(** The destructor: [sqlite3_close]. *)
Definition close : M unit := ret tt.

(** [play], lines 158-163: the player id of the identity entered. *)
Definition play_resolve (name : string) (age : Z) (card : string) : M Z :=
  playerId <- getPlayerID name age card ;;
  if Z.eqb playerId (-1)
  then
    cout [Str "New player detected. Adding to database."; Endl] ;;
    addPlayer name age card ;;
    getPlayerID name age card
  else ret playerId.

(** [play], lines 178-186: one spin with the bet that was read; the result
    is the new value of the local [balance]. *)
Definition play_spin (playerId : Z) (balance bet : double) : M double :=
  result <- getSpinResult ;;
  displaySpinResult result ;;
  let winnings := 0%float in
  let balance := (balance + (winnings - bet))%float in
  updateBalance playerId balance ;;
  saveSpinHistory playerId bet winnings balance ;;
  cout [Str "New Balance: "; Dbl balance; Endl] ;;
  ret balance.

(** [play], lines 168-187: the loop, over what is left on [std::cin]. A
    command must be a character and a bet a number; other input is not
    followed (see [result]). *)
Fixpoint play_loop (input : list token) (playerId : Z) (balance : double) : M unit :=
  cout [Str "Press 'p' to play, 'q' to quit: "] ;;
  match input with
  | TChar choice :: input =>
      if Ascii.eqb choice "q" then ret tt
      else
        cout [Str "Enter your bet amount: "] ;;
        match input with
        | TDouble bet :: input =>
            balance <- play_spin playerId balance bet ;;
            play_loop input playerId balance
        | _ => bad_input
        end
  | _ => bad_input
  end.

Definition play (input : list token) : M unit :=
  cout [Str "Enter your name: "] ;;
  match input with
  | TStr name :: input =>
      cout [Str "Enter your age: "] ;;
      match input with
      | TInt age :: input =>
          cout [Str "Enter your card: "] ;;
          match input with
          | TStr card :: input =>
              playerId <- play_resolve name age card ;;
              let balance := 100%float in
              updateBalance playerId balance ;;
              play_loop input playerId balance
          | _ => bad_input
          end
      | _ => bad_input
      end
  | _ => bad_input
  end.

End SlotMachine.

Import SlotMachine.

(** [main]: the result is the status the process ends with. *)
Definition main (input : list token) : M Z :=
  init ;;
  play input ;;
  close ;;
  ret 0%Z.

(** A world at process start: a database file, the failures to come and the
    random words to come. *)
Definition boot (db : database) (faults : nat -> bool) (raw : nat -> Z) : world :=
  mkWorld db faults 0 raw 0 [] [] [].

Definition no_faults : nat -> bool := fun _ => false.

(** * Vocabulary of the statements *)

(** The world once a statement has gone to the engine. *)
Definition sent (s : stmt) (w : world) : world := traced s (called w).

(** The database a statement leaves when the engine carries it out; [None]
    when the engine fails or the statement cannot be prepared. *)
Definition attempt (s : stmt) (w : world) : option database :=
  if w_faults w (w_calls w) then None else option_map fst (eval s (w_db w)).

(** The world after a statement that returns no rows, with the diagnostic
    the caller prints when the statement did not finish. *)
Definition after (s : stmt) (diag : list item) (w : world) : world :=
  match attempt s w with
  | Some db => with_db db (sent s w)
  | None => complained diag (sent s w)
  end.

(** The value [getPlayerID] returns in a world. *)
Definition found (name : string) (age : Z) (card : string) (w : world) : Z :=
  if w_faults w (w_calls w) then (-1)%Z
  else match players (w_db w) with
       | None => (-1)%Z
       | Some t =>
           match find (matches name age card) (rows t) with
           | Some r => to_int (p_id r)
           | None => (-1)%Z
           end
       end.

(** The engine reports no failure of its own, now or later. *)
Definition healthy (w : world) : Prop := forall n, w_faults w n = false.

(** The world after [n] more words of the random engine were used. *)
Definition drawn (n : nat) (w : world) : world :=
  mkWorld (w_db w) (w_faults w) (w_calls w) (w_raw w) (n + w_drawn w)
          (w_cout w) (w_cerr w) (w_trace w).

(** The [k]-th value [dist (gen)] yields from a world on. *)
Definition draw (w : world) (k : nat) : Z := (w_raw w (k + w_drawn w) mod 4)%Z.

(** The glyphs of the machine. *)
Definition alphabet : list ascii := ["A"; "B"; "C"; "D"]%char.

(** The balances printed on a stream, in order. *)
Definition reported (out : list item) : list double :=
  flat_map (fun i => match i with Dbl d => [d] | _ => [] end) out.

(** The balances a sequence of bets leads through, as [play] computes
    them: each is the one before plus [0 - bet], in binary64. *)
Fixpoint running (balance : double) (bets : list double) : list double :=
  match bets with
  | [] => []
  | bet :: bets =>
      let balance := (balance + (0 - bet))%float in
      balance :: running balance bets
  end.

(** The sum of the bets, in binary64, added up in the order entered. *)
Definition total (bets : list double) : double :=
  fold_left (fun acc bet => (acc + bet)%float) bets 0%float.

(** What is typed for a sequence of spins: a command and a bet each. *)
Definition spins (turns : list (ascii * double)) : list token :=
  flat_map (fun t => [TChar (fst t); TDouble (snd t)]) turns.

(** No command of the sequence is [q]. *)
Definition no_quit (turns : list (ascii * double)) : Prop :=
  Forall (fun t => Ascii.eqb (fst t) "q" = false) turns.

(** The diagnostics of the four statements whose failure is only reported. *)
Definition diag_exec : list item := [Str "Error executing query: "; ErrMsg; Endl].
Definition diag_add : list item := [Str "Error adding player."; Endl].
Definition diag_update : list item := [Str "Error updating balance."; Endl].
Definition diag_history : list item := [Str "Error saving spin history."; Endl].
Definition diag_open : list item := [Str "Error opening database."; Endl].

(** Statements other than the lookup. *)
Definition is_command (s : stmt) : bool :=
  match s with SelectPlayer _ _ _ => false | _ => true end.

(** The grid [getSpinResult] returns in a world: cell (i, j) is the key the
    draw number [3 * i + j] of the call points at. *)
Definition grid (w : world) : list (list ascii) :=
  map (fun i => map (fun j => key_at (draw w (3 * i + j))) [0; 1; 2]%nat) [0; 1; 2]%nat.

(** What [displaySpinResult] writes. *)
Definition shown (result : list (list ascii)) : list item :=
  concat (map (fun row => concat (map (fun symbol => [Chr symbol; Str " "]) row) ++ [Endl])
              result).

Definition prompt_command : list item := [Str "Press 'p' to play, 'q' to quit: "].
Definition prompt_bet : list item := [Str "Enter your bet amount: "].

(** The world one spin leaves (lines 178-186), whatever the engine does. *)
Definition spun (playerId : Z) (balance bet : double) (w : world) : world :=
  let balance := (balance + (0 - bet))%float in
  wrote [Str "New Balance: "; Dbl balance; Endl]
    (after (InsertSpin playerId bet 0 balance) diag_history
       (after (UpdateBalance balance playerId) diag_update
          (wrote (shown (grid w)) (drawn 9 w)))).

(** The balance and the world a sequence of spins leaves. *)
Fixpoint spun_all (playerId : Z) (balance : double) (turns : list (ascii * double))
         (w : world) : double * world :=
  match turns with
  | [] => (balance, w)
  | (_, bet) :: turns =>
      spun_all playerId (balance + (0 - bet))%float turns
               (spun playerId balance bet (wrote prompt_bet (wrote prompt_command w)))
  end.

(** The history rows a sequence of bets adds after rowid [id]. *)
Fixpoint records (id playerId : Z) (balance : double) (bets : list double) : list spin :=
  match bets with
  | [] => []
  | bet :: bets =>
      let balance := (balance + (0 - bet))%float in
      mkSpin (id + 1) playerId bet 0 balance :: records (id + 1) playerId balance bets
  end.

(** The statements a sequence of bets sends. *)
Fixpoint spin_trace (playerId : Z) (balance : double) (bets : list double) : list stmt :=
  match bets with
  | [] => []
  | bet :: bets =>
      let balance := (balance + (0 - bet))%float in
      UpdateBalance balance playerId :: InsertSpin playerId bet 0 balance
        :: spin_trace playerId balance bets
  end.

Definition prompt_identity : list item :=
  [Str "Enter your name: "; Str "Enter your age: "; Str "Enter your card: "].
Definition new_player : list item :=
  [Str "New player detected. Adding to database."; Endl].

(** The id and the world [play_resolve] leaves (lines 158-163). *)
Definition resolving (name : string) (age : Z) (card : string) (w : world) : Z * world :=
  let lookup := SelectPlayer name age card in
  if Z.eqb (found name age card w) (-1)
  then
    let w2 := after (InsertPlayer name age card) diag_add (wrote new_player (sent lookup w)) in
    (found name age card w2, sent lookup w2)
  else (found name age card w, sent lookup w).

(** The id and the world at the head of the loop (lines 158-166). *)
Definition logged (name : string) (age : Z) (card : string) (w : world) : Z * world :=
  let r := resolving name age card w in
  (fst r, after (UpdateBalance 100 (fst r)) diag_update (snd r)).

(** What is typed in a session: the identity, the spins, [q]. *)
Definition session (name : string) (age : Z) (card : string)
           (turns : list (ascii * double)) (rest : list token) : list token :=
  TStr name :: TInt age :: TStr card :: spins turns ++ TChar "q" :: rest.

(** The database after a statement the engine carries out; a statement that
    cannot be prepared changes nothing. *)
Definition exec (s : stmt) (db : database) : database :=
  match eval s db with
  | Some (db', _) => db'
  | None => db
  end.

Definition exec_all (l : list stmt) (db : database) : database :=
  fold_left (fun db s => exec s db) l db.

(** From [w] to [w'] the statements [l] were sent and carried out. *)
Definition ran (l : list stmt) (w w' : world) : Prop :=
  w_trace w' = w_trace w ++ l /\
  w_db w' = exec_all l (w_db w) /\
  w_faults w' = w_faults w.

(** The largest rowid [spin_history] has held. *)
Definition history_seq (db : database) : Z :=
  match spin_history db with
  | Some t => seq t
  | None => 0%Z
  end.

(** Two worlds agree on what the user sees and on the random engine. *)
Definition same_io (w1 w2 : world) : Prop :=
  w_cout w1 = w_cout w2 /\ w_raw w1 = w_raw w2 /\ w_drawn w1 = w_drawn w2.

(** A store with two players, for the examples. *)
Definition two_players : database :=
  mkDb (Some (mkTable [mkPlayer 1 "Alice" 30 "1111" 90; mkPlayer 2 "Bob" 41 "2222" 20] 2))
       (Some (mkTable [mkSpin 1 1 10 0 90] 1)).

(** The world the constructor leaves when the file opens. *)
Definition opened (w : world) : world :=
  after CreateHistory diag_exec (after CreatePlayers diag_exec (called w)).

(** The world a session that quits after its spins leaves. *)
Definition finished (name : string) (age : Z) (card : string)
           (turns : list (ascii * double)) (w : world) : world :=
  let l := logged name age card (wrote prompt_identity (opened w)) in
  wrote prompt_command (snd (spun_all (fst l) 100 turns (snd l))).

(** The id a working store resolves an identity to: that of the first row
    that matches, or the next rowid when none does. *)
Definition resolved_id (db : database) (name : string) (age : Z) (card : string) : Z :=
  match lookup db name age card with
  | Some r => p_id r
  | None => next_id db
  end.

(** The statements that resolve an identity on a working store. *)
Definition resolve_trace (db : database) (name : string) (age : Z) (card : string)
  : list stmt :=
  SelectPlayer name age card ::
  match lookup db name age card with
  | Some _ => []
  | None => [InsertPlayer name age card; SelectPlayer name age card]
  end.

(** The statements of a whole session on a working store. *)
Definition session_trace (db : database) (name : string) (age : Z) (card : string)
           (bets : list double) : list stmt :=
  [CreatePlayers; CreateHistory] ++ resolve_trace db name age card ++
  UpdateBalance 100 (resolved_id db name age card)
    :: spin_trace (resolved_id db name age card) 100 bets.

(** The rows of [players] once an identity is resolved on a working store. *)
Definition enrolled (db : database) (name : string) (age : Z) (card : string)
  : list player :=
  player_rows db ++
  match lookup db name age card with
  | Some _ => []
  | None => [mkPlayer (next_id db) name age card 0]
  end.

(** The engine fails on its call number [n] and on no other. *)
Definition fails_at (n : nat) : nat -> bool := fun k => Nat.eqb k n.

(** What identifies a row of [players] for good: everything but the balance. *)
Definition identity (r : player) : Z * string * Z * string :=
  (p_id r, p_name r, p_age r, p_card r).

(** [db'] holds the history of [db] and more, and the players of [db], in
    order and with their id, name, age and card, and more. *)
Definition grows (db db' : database) : Prop :=
  (exists new, history_rows db' = history_rows db ++ new) /\
  (exists new, map identity (player_rows db') = map identity (player_rows db) ++ new).

(** The rowids of [players] are distinct and below the next one. *)
Definition keyed (db : database) : Prop :=
  Forall (fun r => p_id r < next_id db)%Z (player_rows db) /\
  NoDup (map p_id (player_rows db)).

(** The grid read back from what [displaySpinResult] wrote: a row per
    [Endl], a cell per character; [row] holds the cells of the line being
    read, last first. *)
Fixpoint read_rows (out : list item) (row : list ascii) : list (list ascii) :=
  match out with
  | [] => []
  | Endl :: out => rev row :: read_rows out []
  | Chr c :: out => read_rows out (c :: row)
  | _ :: out => read_rows out row
  end.

(** Two worlds that differ at most in the random words, in how many were
    used and in the glyphs on the screen. *)
Definition same_but_reels (w1 w2 : world) : Prop :=
  w_db w1 = w_db w2 /\ w_faults w1 = w_faults w2 /\ w_calls w1 = w_calls w2 /\
  w_cerr w1 = w_cerr w2 /\ w_trace w1 = w_trace w2 /\
  reported (w_cout w1) = reported (w_cout w2).

(** The values [dist (gen)] can return in [getSpinResult]. *)
Definition values : list Z := [0; 1; 2; 3]%Z.

(** The nine values one call of [getSpinResult] draws, in order. *)
Definition nine (w : world) : list Z := map (draw w) (List.seq 0 9).

(** Nine cells in row-major order as a grid. *)
Definition in_rows (cells : list ascii) : list (list ascii) :=
  match cells with
  | [a; b; c; d; e; f; g; h; i] => [[a; b; c]; [d; e; f]; [g; h; i]]
  | _ => []
  end.

(** All sequences of [n] draws. The library's contract for
    [std::uniform_int_distribution] is that every draw takes each of its
    values with the same probability, independently of the other draws: the
    sequences of this list are equally likely. *)
Fixpoint outcomes (n : nat) : list (list Z) :=
  match n with
  | O => [[]]
  | S n => flat_map (fun d => map (cons d) (outcomes n)) values
  end.

(** An event on the cells: for each cell, in row-major order, the glyph it
    is asked to show, or [None] when any glyph will do. *)
Definition cell_fits (o : option ascii) (c : ascii) : bool :=
  match o with
  | None => true
  | Some g => Ascii.eqb c g
  end.

Fixpoint shows (want : list (option ascii)) (cells : list ascii) : bool :=
  match want, cells with
  | [], [] => true
  | o :: want, c :: cells => cell_fits o c && shows want cells
  | _, _ => false
  end.

(** The number of outcomes in which the cells show what is asked, and the
    number of cells of which something is asked. The probability of the
    event is [favourable want] out of [length (outcomes (length want))]. *)
Definition favourable (want : list (option ascii)) : nat :=
  length (filter (fun ds => shows want (map key_at ds)) (outcomes (length want))).

Definition asked (want : list (option ascii)) : nat :=
  length (filter (fun o => match o with Some _ => true | None => false end) want).

(** The event asks for glyphs of the machine only. *)
Definition glyphs_only (want : list (option ascii)) : Prop :=
  Forall (fun o => match o with Some g => In g alphabet | None => True end) want.

(** The engine reports no failure from the next call on. *)
Definition quiet (w : world) : Prop :=
  forall k, (w_calls w <= k)%nat -> w_faults w k = false.

(** A number [std::cin] extracts into an [int]. *)
Definition is_int (z : Z) : Prop := (- 2 ^ 31 <= z < 2 ^ 31)%Z.

(** * Properties *)

(** ** IEEE arithmetic of one spin *)

(** [balance += winnings - bet] with [winnings = 0] is the subtraction
    [balance - bet], rounded once; the two differ only in the sign of a zero
    result when [balance] is the negative zero. *)
Lemma add_zero_sub (x y : double) :
  x <> neg_zero -> (x + (0 - y))%float = (x - y)%float.
Proof.
  intros Hx. apply Prim2SF_inj.
  rewrite add_spec, !sub_spec.
  assert (Hx' : Prim2SF x <> S754_zero true).
  { intro E. apply Hx, Prim2SF_inj. rewrite E. reflexivity. }
  change (Prim2SF 0) with (S754_zero false).
  unfold SF64add, SF64sub.
  destruct (Prim2SF x) as [sx | sx | | sx mx ex];
    destruct (Prim2SF y) as [sy | sy | | sy my ey];
    try reflexivity;
    destruct sx; try reflexivity; try congruence; destruct sy; reflexivity.
Qed.

(** ** The engine and the methods that step one statement *)

Lemma eval_command s db db' v :
  is_command s = true -> eval s db = Some (db', v) -> v = None.
Proof.
  destruct s; simpl; intros Hs H; try discriminate;
    try (destruct (players db)); try (destruct (spin_history db));
    congruence.
Qed.

Lemma command_eq s diag w :
  is_command s = true ->
  (r <- sqlite3_step s ;;
   if negb (rc_eqb (fst r) SQLITE_DONE) then cerr diag else ret tt) w
  = (Ok tt, after s diag w).
Proof.
  intros Hs. unfold after, attempt, sqlite3_step, fault, bind, ret, cerr.
  cbv beta iota.
  destruct (w_faults w (w_calls w)); [reflexivity|].
  change (w_db (traced s (called w))) with (w_db w).
  destruct (eval s (w_db w)) as [[db v]|] eqn:E; [|reflexivity].
  rewrite (eval_command s _ Hs E). reflexivity.
Qed.

Lemma executeQuery_eq q w :
  is_command q = true -> executeQuery q w = (Ok tt, after q diag_exec w).
Proof.
  intros Hs.
  unfold executeQuery, sqlite3_exec, after, attempt, sqlite3_step, fault, bind, ret, cerr.
  cbv beta iota.
  destruct (w_faults w (w_calls w)); [reflexivity|].
  change (w_db (traced q (called w))) with (w_db w).
  destruct (eval q (w_db w)) as [[db v]|] eqn:E; [|reflexivity].
  rewrite (eval_command q _ Hs E). reflexivity.
Qed.

Lemma addPlayer_eq name age card w :
  addPlayer name age card w = (Ok tt, after (InsertPlayer name age card) diag_add w).
Proof. apply command_eq. reflexivity. Qed.

Lemma updateBalance_eq playerId newBalance w :
  updateBalance playerId newBalance w
  = (Ok tt, after (UpdateBalance newBalance playerId) diag_update w).
Proof. apply command_eq. reflexivity. Qed.

Lemma saveSpinHistory_eq playerId bet winnings balance w :
  saveSpinHistory playerId bet winnings balance w
  = (Ok tt, after (InsertSpin playerId bet winnings balance) diag_history w).
Proof. apply command_eq. reflexivity. Qed.

Lemma getPlayerID_eq name age card w :
  getPlayerID name age card w
  = (Ok (found name age card w), sent (SelectPlayer name age card) w).
Proof.
  unfold getPlayerID, found, sqlite3_step, fault, bind, ret.
  cbv beta iota.
  destruct (w_faults w (w_calls w)); [reflexivity|].
  simpl. destruct (players (w_db w)) as [t|]; [|reflexivity].
  destruct (find (matches name age card) (rows t)); reflexivity.
Qed.

(** What [after] leaves alone and what it changes. *)
Lemma after_cout s d w : w_cout (after s d w) = w_cout w.
Proof. unfold after. destruct (attempt s w); reflexivity. Qed.

Lemma after_faults s d w : w_faults (after s d w) = w_faults w.
Proof. unfold after. destruct (attempt s w); reflexivity. Qed.

Lemma after_calls s d w : w_calls (after s d w) = S (w_calls w).
Proof. unfold after. destruct (attempt s w); reflexivity. Qed.

Lemma after_raw s d w : w_raw (after s d w) = w_raw w.
Proof. unfold after. destruct (attempt s w); reflexivity. Qed.

Lemma after_drawn s d w : w_drawn (after s d w) = w_drawn w.
Proof. unfold after. destruct (attempt s w); reflexivity. Qed.

Lemma after_trace s d w : w_trace (after s d w) = w_trace w ++ [s].
Proof. unfold after. destruct (attempt s w); reflexivity. Qed.

Lemma after_db s d w :
  w_db (after s d w) = match attempt s w with Some db => db | None => w_db w end.
Proof. unfold after. destruct (attempt s w); reflexivity. Qed.

Lemma after_cerr s d w :
  w_cerr (after s d w) = w_cerr w ++ match attempt s w with Some _ => [] | None => d end.
Proof.
  unfold after. destruct (attempt s w); simpl; [now rewrite app_nil_r | reflexivity].
Qed.

Lemma healthy_after s d w : healthy w -> healthy (after s d w).
Proof. unfold healthy. now rewrite after_faults. Qed.

Lemma attempt_healthy s w :
  healthy w -> attempt s w = option_map fst (eval s (w_db w)).
Proof. intros H. unfold attempt. now rewrite H. Qed.

(** ** The reel generator *)

Lemma getSpinResult_eq w : getSpinResult w = (Ok (grid w), drawn 9 w).
Proof. reflexivity. Qed.

Lemma displaySpinResult_eq result w :
  displaySpinResult result w = (Ok tt, wrote (shown result) w).
Proof. reflexivity. Qed.

Lemma draw_range w k : (0 <= draw w k <= 3)%Z.
Proof. unfold draw. pose proof (Z.mod_pos_bound (w_raw w (k + w_drawn w)) 4). lia. Qed.

Lemma key_at_alphabet k : (0 <= k <= 3)%Z -> In (key_at k) alphabet.
Proof.
  intros H.
  assert (E : k = 0%Z \/ k = 1%Z \/ k = 2%Z \/ k = 3%Z) by lia.
  destruct E as [-> | [-> | [-> | ->]]]; simpl; auto.
Qed.

Lemma key_at_inj k k' :
  (0 <= k <= 3)%Z -> (0 <= k' <= 3)%Z -> key_at k = key_at k' -> k = k'.
Proof.
  intros H H'.
  assert (E : k = 0%Z \/ k = 1%Z \/ k = 2%Z \/ k = 3%Z) by lia.
  assert (E' : k' = 0%Z \/ k' = 1%Z \/ k' = 2%Z \/ k' = 3%Z) by lia.
  destruct E as [-> | [-> | [-> | ->]]]; destruct E' as [-> | [-> | [-> | ->]]];
    cbv; intros Heq; solve [reflexivity | discriminate Heq].
Qed.

Lemma outcomes_length n : length (outcomes n) = (4 ^ n)%nat.
Proof.
  induction n as [|n IH]; [reflexivity|].
  cbn [outcomes values flat_map]. rewrite !length_app, !length_map, IH. cbn. lia.
Qed.

Lemma outcomes_in ds :
  Forall (fun d => 0 <= d <= 3)%Z ds -> In ds (outcomes (length ds)).
Proof.
  induction 1 as [|d ds Hd _ IH]; [now left|].
  cbn [length outcomes]. apply in_flat_map. exists d. split.
  - assert (E : d = 0%Z \/ d = 1%Z \/ d = 2%Z \/ d = 3%Z) by lia.
    unfold values. cbn. intuition.
  - now apply in_map.
Qed.

Lemma filter_cons {A} (f : A -> bool) x l :
  filter f (x :: l) = if f x then x :: filter f l else filter f l.
Proof. reflexivity. Qed.

Lemma favourable_step o want d l :
  length (filter (fun ds => shows (o :: want) (map key_at ds)) (map (cons d) l))
  = if cell_fits o (key_at d)
    then length (filter (fun ds => shows want (map key_at ds)) l)
    else 0%nat.
Proof.
  induction l as [|ds l IH]; [now destruct (cell_fits o (key_at d))|].
  change (map (cons d) (ds :: l)) with ((d :: ds) :: map (cons d) l).
  rewrite !filter_cons.
  change (shows (o :: want) (map key_at (d :: ds)))
    with (cell_fits o (key_at d) && shows want (map key_at ds)).
  destruct (cell_fits o (key_at d)); cbn [andb] in *.
  - destruct (shows want (map key_at ds)); cbn [length]; now rewrite IH.
  - exact IH.
Qed.

Lemma favourable_cons o want :
  favourable (o :: want)
  = (length (filter (fun d => cell_fits o (key_at d)) values) * favourable want)%nat.
Proof.
  unfold favourable. cbn [length outcomes values flat_map].
  rewrite app_nil_r, !filter_app, !length_app, !favourable_step.
  set (F := length (filter (fun ds => shows want (map key_at ds)) (outcomes (length want)))).
  unfold values. rewrite !filter_cons. cbn [filter].
  destruct (cell_fits o (key_at 0)), (cell_fits o (key_at 1)),
           (cell_fits o (key_at 2)), (cell_fits o (key_at 3)); cbn [length]; lia.
Qed.

Lemma one_value_per_glyph g :
  In g alphabet ->
  length (filter (fun d => cell_fits (Some g) (key_at d)) values) = 1%nat.
Proof.
  cbv [alphabet In]. intros [<- | [<- | [<- | [<- | []]]]]; reflexivity.
Qed.

Lemma favourable_count want :
  glyphs_only want ->
  (favourable want * 4 ^ asked want = 4 ^ length want)%nat.
Proof.
  induction 1 as [|o want Ho _ IH]; [reflexivity|].
  rewrite favourable_cons. unfold asked in *. cbn [filter length].
  destruct o as [g|].
  - rewrite (one_value_per_glyph Ho). cbn [length].
    rewrite !Nat.pow_succ_r'. nia.
  - change (length (filter (fun d => cell_fits None (key_at d)) values)) with 4%nat.
    rewrite Nat.pow_succ_r'. nia.
Qed.

(** C2: every call of [getSpinResult] returns a grid of 3 rows of 3 cells, 9
    symbols in all, each one of A, B, C, D. Cell (i, j) is the key selected
    by a draw of its own, number [3 * i + j] of the call, a value in 0..3,
    and each glyph is selected by exactly one of these four values. The nine
    draws of a call are one of the 4^9 sequences of such values, which the
    library draws with equal probability; among them, the sequences in which
    [k] given cells show [k] given glyphs are one in 4^k: each cell shows
    each glyph with probability 1/4, and the probability for several cells
    is the product, which is their independence. A value the environment
    supplies in 0..3 is the value drawn. *)
Theorem getSpinResult_grid (w : world) :
  exists g,
    fst (getSpinResult w) = Ok g /\
    length g = 3%nat /\
    Forall (fun row => length row = 3%nat) g /\
    length (concat g) = 9%nat /\
    Forall (fun c => In c alphabet) (concat g) /\
    (forall i j, (i < 3)%nat -> (j < 3)%nat ->
       nth j (nth i g []) Ascii.zero = key_at (draw w (3 * i + j)) /\
       (0 <= draw w (3 * i + j) <= 3)%Z) /\
    (forall c, In c alphabet ->
       exists k, (0 <= k <= 3)%Z /\ key_at k = c /\
         forall k', (0 <= k' <= 3)%Z -> key_at k' = c -> k' = k) /\
    g = in_rows (map key_at (nine w)) /\
    In (nine w) (outcomes 9) /\
    length (outcomes 9) = (4 ^ 9)%nat /\
    (forall want,
       length want = 9%nat -> glyphs_only want ->
       (favourable want * 4 ^ asked want = 4 ^ 9)%nat) /\
    (forall k, (0 <= w_raw w (k + w_drawn w) <= 3)%Z ->
       draw w k = w_raw w (k + w_drawn w)).
Proof.
  exists (grid w). split; [reflexivity|].
  split; [reflexivity|].
  split; [repeat constructor|].
  split; [reflexivity|].
  split.
  { unfold grid. cbn [map concat app].
    repeat (apply Forall_cons; [apply key_at_alphabet, draw_range|]).
    apply Forall_nil. }
  split.
  { intros i j Hi Hj. split; [|apply draw_range].
    destruct i as [|[|[|i]]]; [| | |lia];
      (destruct j as [|[|[|j]]]; [| | |lia]); reflexivity. }
  split.
  { intros c Hc.
    assert (K : forall k, (0 <= k <= 3)%Z -> key_at k = c ->
                forall k', (0 <= k' <= 3)%Z -> key_at k' = c -> k' = k).
    { intros k Hk E k' Hk' E'. apply key_at_inj; congruence. }
    cbv [alphabet In] in Hc.
    destruct Hc as [<- | [<- | [<- | [<- | []]]]].
    - exists 0%Z. split; [lia|]. split; [reflexivity|]. apply K; [lia|reflexivity].
    - exists 1%Z. split; [lia|]. split; [reflexivity|]. apply K; [lia|reflexivity].
    - exists 2%Z. split; [lia|]. split; [reflexivity|]. apply K; [lia|reflexivity].
    - exists 3%Z. split; [lia|]. split; [reflexivity|]. apply K; [lia|reflexivity]. }
  split; [reflexivity|].
  split.
  { apply (@outcomes_in (nine w)). unfold nine. cbn [map List.seq].
    repeat (apply Forall_cons; [apply draw_range|]). apply Forall_nil. }
  split; [apply outcomes_length|].
  split; [intros want L G; rewrite <- L; now apply favourable_count|].
  intros k Hk. unfold draw. apply Z.mod_small. lia.
Qed.

(** ** One spin and the loop *)

Lemma play_spin_eq playerId balance bet w :
  play_spin playerId balance bet w
  = (Ok (balance + (0 - bet))%float, spun playerId balance bet w).
Proof.
  unfold play_spin, bind. rewrite getSpinResult_eq, displaySpinResult_eq.
  rewrite updateBalance_eq, saveSpinHistory_eq. reflexivity.
Qed.

Lemma play_loop_quit rest playerId balance w :
  play_loop (TChar "q" :: rest) playerId balance w = (Ok tt, wrote prompt_command w).
Proof. reflexivity. Qed.

Lemma play_loop_spin c bet rest playerId balance w :
  Ascii.eqb c "q" = false ->
  play_loop (TChar c :: TDouble bet :: rest) playerId balance w
  = play_loop rest playerId (balance + (0 - bet))%float
      (spun playerId balance bet (wrote prompt_bet (wrote prompt_command w))).
Proof.
  intros Hc. cbn [play_loop]. unfold bind at 1. unfold cout at 1.
  rewrite Hc. unfold bind at 1. unfold cout at 1.
  unfold bind at 1. rewrite play_spin_eq. reflexivity.
Qed.

Lemma play_loop_spins turns rest playerId balance w :
  no_quit turns ->
  play_loop (spins turns ++ rest) playerId balance w
  = play_loop rest playerId (fst (spun_all playerId balance turns w))
      (snd (spun_all playerId balance turns w)).
Proof.
  intros H. revert balance w.
  induction H as [|[c bet] turns Hc _ IH]; intros balance w; [reflexivity|].
  change (spins ((c, bet) :: turns) ++ rest)
    with (TChar c :: TDouble bet :: (spins turns ++ rest)).
  simpl in Hc. rewrite play_loop_spin by exact Hc. apply IH.
Qed.

Lemma reported_app a b : reported (a ++ b) = reported a ++ reported b.
Proof. apply flat_map_app. Qed.

Lemma reported_shown g : reported (shown g) = [].
Proof.
  unfold shown. induction g as [|row g IH]; [reflexivity|].
  cbn [map concat]. rewrite !reported_app, IH, app_nil_r.
  induction row as [|c row IHr]; [reflexivity|]. exact IHr.
Qed.

Lemma spun_cout playerId balance bet w :
  w_cout (spun playerId balance bet w)
  = w_cout w ++ shown (grid w) ++ [Str "New Balance: "; Dbl (balance + (0 - bet)); Endl].
Proof.
  unfold spun. cbn [w_cout wrote]. rewrite !after_cout. cbn [w_cout wrote drawn].
  now rewrite app_assoc.
Qed.

Lemma spun_faults playerId balance bet w :
  w_faults (spun playerId balance bet w) = w_faults w.
Proof. unfold spun. cbn [w_faults wrote]. now rewrite !after_faults. Qed.

Lemma spun_trace playerId balance bet w :
  w_trace (spun playerId balance bet w)
  = w_trace w ++ [UpdateBalance (balance + (0 - bet)) playerId;
                  InsertSpin playerId bet 0 (balance + (0 - bet))].
Proof.
  unfold spun. cbn [w_trace wrote]. rewrite !after_trace. cbn [w_trace wrote drawn].
  now rewrite <- app_assoc.
Qed.

Lemma last_default {A} (x : A) l d d' : last (x :: l) d = last (x :: l) d'.
Proof.
  revert x. induction l as [|y l IH]; intros x; [reflexivity|].
  change (last (y :: l) d = last (y :: l) d'). apply IH.
Qed.

Lemma spun_all_balance playerId balance turns w :
  fst (spun_all playerId balance turns w) = last (running balance (map snd turns)) balance.
Proof.
  revert balance w. induction turns as [|[c bet] turns IH]; intros balance w; [reflexivity|].
  cbn [spun_all map snd running]. rewrite IH.
  destruct (running (balance + (0 - bet)) (map snd turns)) as [|b l]; [reflexivity|].
  change (last (b :: l) (balance + (0 - bet))%float = last (b :: l) balance).
  apply last_default.
Qed.

Lemma spun_all_reported playerId balance turns w :
  reported (w_cout (snd (spun_all playerId balance turns w)))
  = reported (w_cout w) ++ running balance (map snd turns).
Proof.
  revert balance w. induction turns as [|[c bet] turns IH]; intros balance w.
  - cbn. now rewrite app_nil_r.
  - cbn [spun_all map snd running]. rewrite IH, spun_cout.
    cbn [w_cout wrote]. rewrite !reported_app, reported_shown.
    cbn. now rewrite !app_nil_r, <- app_assoc.
Qed.

Lemma spun_all_faults playerId balance turns w :
  w_faults (snd (spun_all playerId balance turns w)) = w_faults w.
Proof.
  revert balance w. induction turns as [|[c bet] turns IH]; intros balance w; [reflexivity|].
  cbn [spun_all]. now rewrite IH, spun_faults.
Qed.

Lemma spun_all_trace playerId balance turns w :
  w_trace (snd (spun_all playerId balance turns w))
  = w_trace w ++ spin_trace playerId balance (map snd turns).
Proof.
  revert balance w. induction turns as [|[c bet] turns IH]; intros balance w.
  - cbn. now rewrite app_nil_r.
  - cbn [spun_all map snd spin_trace]. rewrite IH, spun_trace.
    cbn [w_trace wrote]. now rewrite <- app_assoc.
Qed.

(** ** Resolving the identity *)

Lemma play_resolve_eq name age card w :
  play_resolve name age card w
  = (Ok (fst (resolving name age card w)), snd (resolving name age card w)).
Proof.
  unfold play_resolve, resolving. unfold bind at 1. rewrite getPlayerID_eq.
  destruct (Z.eqb (found name age card w) (-1)); [|reflexivity].
  unfold bind at 1. unfold cout at 1. unfold bind at 1.
  rewrite addPlayer_eq, getPlayerID_eq. reflexivity.
Qed.

Lemma play_eq name age card rest w :
  play (TStr name :: TInt age :: TStr card :: rest) w
  = play_loop rest (fst (logged name age card (wrote prompt_identity w))) 100
      (snd (logged name age card (wrote prompt_identity w))).
Proof.
  unfold play, logged. repeat (unfold bind at 1; unfold cout at 1).
  unfold bind at 1.
  replace (wrote [Str "Enter your card: "]
             (wrote [Str "Enter your age: "] (wrote [Str "Enter your name: "] w)))
    with (wrote prompt_identity w)
    by (unfold wrote, prompt_identity; cbn; now rewrite <- !app_assoc).
  rewrite play_resolve_eq. unfold bind at 1. rewrite updateBalance_eq. reflexivity.
Qed.

Lemma resolving_reported name age card w :
  reported (w_cout (snd (resolving name age card w))) = reported (w_cout w).
Proof.
  unfold resolving. destruct (Z.eqb (found name age card w) (-1)); [|reflexivity].
  cbn [snd sent traced called w_cout]. rewrite after_cout. cbn [w_cout wrote sent traced called].
  rewrite reported_app. cbn. now rewrite app_nil_r.
Qed.

Lemma logged_reported name age card w :
  reported (w_cout (snd (logged name age card w))) = reported (w_cout w).
Proof. unfold logged. cbn [snd]. now rewrite after_cout, resolving_reported. Qed.

(** C1, as the code has it: in a session of N spins that then quits, the
    balances reported are 100.0 with the bets taken off one after the other,
    each as [balance + (0 - bet)] in binary64, which is the rounded
    subtraction [balance - bet]. No bet is refused, whatever its sign and
    whatever the balance, and no failure of the store changes the figures. *)
Theorem play_balances (name : string) (age : Z) (card : string)
        (turns : list (ascii * double)) (rest : list token) (w : world) :
  no_quit turns ->
  fst (play (session name age card turns rest) w) = Ok tt /\
  reported (w_cout (snd (play (session name age card turns rest) w)))
  = reported (w_cout w) ++ running 100 (map snd turns) /\
  (forall balance bet : double,
     balance <> neg_zero -> (balance + (0 - bet))%float = (balance - bet)%float).
Proof.
  intros H. unfold session. rewrite play_eq, play_loop_spins by exact H.
  rewrite play_loop_quit. cbn [fst snd w_cout wrote].
  split; [reflexivity|]. split; [|intros; now apply add_zero_sub].
  rewrite reported_app, spun_all_reported, logged_reported.
  cbn [w_cout wrote]. rewrite reported_app.
  change (reported prompt_identity) with (@nil double).
  change (reported prompt_command) with (@nil double).
  now rewrite !app_nil_r.
Qed.

(** Three spins with bets 150, 0 and -5: the balance goes to -50 and the
    negative bet raises it to -45. *)
Lemma play_balances_witness :
  no_quit [("p"%char, 150%float); ("p"%char, 0%float); ("p"%char, (-5)%float)] /\
  reported (w_cout (snd (play
    [TStr "Alice"; TInt 30; TStr "1111";
     TChar "p"; TDouble 150; TChar "p"; TDouble 0; TChar "p"; TDouble (-5); TChar "q"]
    (boot empty_db no_faults (fun _ => 0%Z)))))
  = [(-50)%float; (-50)%float; (-45)%float].
Proof.
  assert (H : no_quit [("p"%char, 150%float); ("p"%char, 0%float); ("p"%char, (-5)%float)])
    by (repeat constructor).
  split; [exact H|].
  exact (proj1 (proj2 (play_balances "Alice" 30 "1111" [] (boot empty_db no_faults (fun _ => 0%Z)) H))).
Defined.

(** C1 as stated fails: after the bets 1e20 and -1e20, whose sum is 0, the
    balance is 0 and not 100 - 0. *)
Lemma play_balances_not_total :
  let bets := [1e20%float; (-1e20)%float] in
  reported (w_cout (snd (main
    [TStr "Alice"; TInt 30; TStr "1111";
     TChar "p"; TDouble 1e20; TChar "p"; TDouble (-1e20); TChar "q"]
    (boot empty_db no_faults (fun _ => 0%Z)))))
  = [(-1e20)%float; 0%float] /\
  (100 - total bets)%float = 100%float /\
  (0 <? 100)%float = true.
Proof. vm_compute. repeat split. Qed.

(** ** Statements on the database *)

Lemma exec_update_players balance id db :
  player_rows (exec (UpdateBalance balance id) db)
  = map (set_balance balance id) (player_rows db).
Proof.
  unfold exec, player_rows. simpl.
  destruct (players db) eqn:E; simpl; rewrite ?E; reflexivity.
Qed.

Lemma exec_update_history balance id db :
  spin_history (exec (UpdateBalance balance id) db) = spin_history db.
Proof. unfold exec. simpl. destruct (players db) eqn:E; simpl; rewrite ?E; reflexivity. Qed.

Lemma exec_update_next balance id db :
  next_id (exec (UpdateBalance balance id) db) = next_id db.
Proof.
  unfold exec, next_id. simpl.
  destruct (players db) eqn:E; simpl; rewrite ?E; reflexivity.
Qed.

Lemma exec_spin_players playerId bet winnings balance db :
  players (exec (InsertSpin playerId bet winnings balance) db) = players db.
Proof. unfold exec. simpl. destruct (spin_history db) eqn:E; simpl; rewrite ?E; reflexivity. Qed.

Lemma exec_spin_history playerId bet winnings balance db t :
  spin_history db = Some t ->
  spin_history (exec (InsertSpin playerId bet winnings balance) db)
  = Some (mkTable (rows t ++ [mkSpin (seq t + 1) playerId bet winnings balance])
                  (seq t + 1)).
Proof. intros H. unfold exec. simpl. now rewrite H. Qed.

Lemma exec_select name age card db : exec (SelectPlayer name age card) db = db.
Proof. unfold exec. simpl. destruct (players db) eqn:E; simpl; rewrite ?E; reflexivity. Qed.

Lemma set_balance_fields balance id r :
  p_id (set_balance balance id r) = p_id r /\
  p_name (set_balance balance id r) = p_name r /\
  p_age (set_balance balance id r) = p_age r /\
  p_card (set_balance balance id r) = p_card r /\
  p_balance (set_balance balance id r)
  = if Z.eqb (p_id r) id then balance else p_balance r.
Proof. unfold set_balance. destruct (Z.eqb (p_id r) id); repeat split. Qed.

Lemma set_balance_other balance id r : p_id r <> id -> set_balance balance id r = r.
Proof. intros H. unfold set_balance. apply Z.eqb_neq in H. now rewrite H. Qed.

Lemma set_balance_twice b b' id r :
  set_balance b' id (set_balance b id r) = set_balance b' id r.
Proof.
  unfold set_balance. destruct (Z.eqb (p_id r) id) eqn:E; simpl; now rewrite E.
Qed.

Lemma matches_set_balance name age card balance id r :
  matches name age card (set_balance balance id r) = matches name age card r.
Proof. unfold matches, set_balance. destruct (Z.eqb (p_id r) id); reflexivity. Qed.

(** ** Runs without failures *)

Lemma ran_refl w : ran [] w w.
Proof. unfold ran. now rewrite app_nil_r. Qed.

Lemma ran_trans l1 l2 w1 w2 w3 : ran l1 w1 w2 -> ran l2 w2 w3 -> ran (l1 ++ l2) w1 w3.
Proof.
  intros (T1 & D1 & F1) (T2 & D2 & F2). unfold ran, exec_all.
  rewrite T2, T1, D2, D1, F2, F1, fold_left_app, app_assoc. auto.
Qed.

Lemma ran_healthy l w w' : ran l w w' -> healthy w -> healthy w'.
Proof. intros (_ & _ & F) H n. now rewrite F. Qed.

Lemma ran_wrote l w : ran [] w (wrote l w).
Proof. unfold ran. cbn. now rewrite app_nil_r. Qed.

Lemma ran_drawn n w : ran [] w (drawn n w).
Proof. unfold ran. cbn. now rewrite app_nil_r. Qed.

Lemma ran_after s d w : healthy w -> ran [s] w (after s d w).
Proof.
  intros H. unfold ran. rewrite after_trace, after_db, after_faults, attempt_healthy by exact H.
  repeat split. unfold exec_all, exec. cbn. destruct (eval s (w_db w)) as [[db v]|]; reflexivity.
Qed.

Lemma ran_select name age card w :
  ran [SelectPlayer name age card] w (sent (SelectPlayer name age card) w).
Proof. unfold ran, exec_all. cbn. now rewrite exec_select. Qed.

Lemma ran_spun playerId balance bet w :
  healthy w ->
  ran [UpdateBalance (balance + (0 - bet)) playerId;
       InsertSpin playerId bet 0 (balance + (0 - bet))] w (spun playerId balance bet w).
Proof.
  intros H. unfold spun.
  eapply (ran_trans (l1 := [_; _]) (l2 := [])); [|apply ran_wrote].
  eapply (ran_trans (l1 := [_]) (l2 := [_])); [|apply ran_after].
  - eapply (ran_trans (l1 := []) (l2 := [_])); [|apply ran_after].
    + eapply (ran_trans (l1 := []) (l2 := [])); [apply ran_drawn | apply ran_wrote].
    + exact H.
  - apply healthy_after. exact H.
Qed.

Lemma ran_spun_all playerId balance turns w :
  healthy w ->
  ran (spin_trace playerId balance (map snd turns)) w
      (snd (spun_all playerId balance turns w)).
Proof.
  revert balance w. induction turns as [|[c bet] turns IH]; intros balance w H.
  - apply ran_refl.
  - cbn [spun_all map snd spin_trace].
    eapply (ran_trans (l1 := [_; _])); [|apply IH].
    + eapply (ran_trans (l1 := []) (l2 := [_; _])); [|apply ran_spun; exact H].
      eapply (ran_trans (l1 := []) (l2 := [])); apply ran_wrote.
    + intros n. rewrite spun_faults. apply H.
Qed.

(** ** The rows a sequence of spins leaves *)

Lemma records_facts id playerId balance bets :
  length (records id playerId balance bets) = length bets /\
  Forall (fun r => h_player_id r = playerId /\ h_winnings r = 0%float)
         (records id playerId balance bets) /\
  map h_bet (records id playerId balance bets) = bets /\
  map h_balance (records id playerId balance bets) = running balance bets.
Proof.
  revert id balance. induction bets as [|bet bets IH]; intros id balance.
  - repeat split. constructor.
  - destruct (IH (id + 1)%Z (balance + (0 - bet))%float) as (L & F & B & R).
    cbn [records length map running]. rewrite L, B, R.
    repeat split. constructor; [split; reflexivity | exact F].
Qed.

Lemma exec_spins_history playerId balance bets db t :
  spin_history db = Some t ->
  history_rows (exec_all (spin_trace playerId balance bets) db)
  = rows t ++ records (seq t) playerId balance bets.
Proof.
  revert balance db t. induction bets as [|bet bets IH]; intros balance db t H.
  - cbn. unfold history_rows. rewrite H. cbn. now rewrite app_nil_r.
  - cbn [spin_trace exec_all fold_left records].
    fold (exec_all (spin_trace playerId (balance + (0 - bet)) bets)).
    erewrite IH.
    2:{ apply exec_spin_history. rewrite exec_update_history. exact H. }
    cbn [rows seq]. now rewrite <- app_assoc.
Qed.

Lemma last_cons {A} (x : A) l d : last (x :: l) d = last l x.
Proof. destruct l as [|y l]; [reflexivity|]. apply (last_default y l d x). Qed.

Lemma exec_spins_players_fold playerId balance bets db :
  player_rows (exec_all (spin_trace playerId balance bets) db)
  = fold_left (fun rows b => map (set_balance b playerId) rows)
              (running balance bets) (player_rows db).
Proof.
  revert balance db. induction bets as [|bet bets IH]; intros balance db; [reflexivity|].
  cbn [spin_trace running exec_all fold_left].
  fold (exec_all (spin_trace playerId (balance + (0 - bet)) bets)).
  rewrite IH. f_equal. unfold player_rows.
  rewrite exec_spin_players. apply exec_update_players.
Qed.

Lemma rebalance_fold id bs b (l : list player) :
  fold_left (fun rows b => map (set_balance b id) rows) bs (map (set_balance b id) l)
  = map (set_balance (last bs b) id) l.
Proof.
  revert b. induction bs as [|b1 bs IH]; intros b; [reflexivity|].
  cbn [fold_left]. rewrite map_map.
  rewrite (map_ext _ (set_balance b1 id)) by (intros; apply set_balance_twice).
  rewrite IH. now rewrite last_cons.
Qed.

Lemma exec_spins_players playerId balance bets db :
  player_rows (exec_all (UpdateBalance balance playerId :: spin_trace playerId balance bets) db)
  = map (set_balance (last (running balance bets) balance) playerId) (player_rows db).
Proof.
  cbn [exec_all fold_left]. fold (exec_all (spin_trace playerId balance bets)).
  rewrite exec_spins_players_fold, exec_update_players. apply rebalance_fold.
Qed.

Lemma after_db_ok s d w :
  w_faults w (w_calls w) = false -> w_db (after s d w) = exec s (w_db w).
Proof.
  intros H. rewrite after_db. unfold attempt, exec. rewrite H.
  destruct (eval s (w_db w)) as [[db v]|]; reflexivity.
Qed.

(** ** updateBalance *)

(** C9: [updateBalance] overwrites without looking at the amount: when the
    engine carries the statement out, every row keeps its id, name, age and
    card, the rows with the given id get the given balance, whatever its
    sign, the other rows keep theirs, and the spin history, the number of
    rows and the AUTOINCREMENT counter are as before. *)
Theorem updateBalance_overwrite (playerId : Z) (amount : double) (w : world) :
  w_faults w (w_calls w) = false ->
  exists w',
    updateBalance playerId amount w = (Ok tt, w') /\
    Forall2 (fun r r' =>
               p_id r' = p_id r /\ p_name r' = p_name r /\
               p_age r' = p_age r /\ p_card r' = p_card r /\
               p_balance r' = if Z.eqb (p_id r) playerId then amount else p_balance r)
            (player_rows (w_db w)) (player_rows (w_db w')) /\
    spin_history (w_db w') = spin_history (w_db w) /\
    next_id (w_db w') = next_id (w_db w).
Proof.
  intros H. rewrite updateBalance_eq. eexists. split; [reflexivity|].
  rewrite after_db_ok by exact H.
  rewrite exec_update_players, exec_update_history, exec_update_next.
  repeat split.
  induction (player_rows (w_db w)) as [|r l IH]; cbn [map]; constructor; [|exact IH].
  apply set_balance_fields.
Qed.

(** Player 1 of two is given the balance -5. *)
Lemma updateBalance_overwrite_witness :
  w_faults (boot two_players no_faults (fun _ => 0%Z)) 0 = false /\
  exists w',
    updateBalance 1 (-5) (boot two_players no_faults (fun _ => 0%Z)) = (Ok tt, w') /\
    player_rows (w_db w')
    = [mkPlayer 1 "Alice" 30 "1111" (-5); mkPlayer 2 "Bob" 41 "2222" 20] /\
    history_rows (w_db w') = [mkSpin 1 1 10 0 90].
Proof.
  split; [reflexivity|].
  destruct (updateBalance_overwrite 1 (-5) (boot two_players no_faults (fun _ => 0%Z)) eq_refl)
    as (w' & E & _).
  exists w'. split; [exact E|].
  vm_compute in E. injection E as <-. split; reflexivity.
Defined.

(** ** The spin history *)

(** C4: while the engine works, a loop of N spins that then quits leaves the
    history as it was plus one row per spin, in order; the row of a spin
    holds the player id of the session, the bet entered, winnings 0 and the
    new balance, and the balances of the rows are the balances printed. *)
Theorem play_loop_history (playerId : Z) (balance : double)
        (turns : list (ascii * double)) (rest : list token) (w : world)
        (t : table spin) :
  healthy w ->
  spin_history (w_db w) = Some t ->
  no_quit turns ->
  let recs := records (seq t) playerId balance (map snd turns) in
  exists w',
    play_loop (spins turns ++ TChar "q" :: rest) playerId balance w = (Ok tt, w') /\
    history_rows (w_db w') = rows t ++ recs /\
    length recs = length turns /\
    Forall (fun r => h_player_id r = playerId /\ h_winnings r = 0%float) recs /\
    map h_bet recs = map snd turns /\
    map h_balance recs = running balance (map snd turns) /\
    reported (w_cout w') = reported (w_cout w) ++ map h_balance recs.
Proof.
  intros H Ht Hq recs.
  rewrite play_loop_spins by exact Hq. rewrite play_loop_quit.
  eexists. split; [reflexivity|]. cbn [w_db w_cout wrote].
  destruct (ran_spun_all playerId balance turns H) as (_ & D & _).
  destruct (records_facts (seq t) playerId balance (map snd turns)) as (L & F & B & R).
  fold recs in L, F, B, R.
  rewrite D, (exec_spins_history _ _ _ _ Ht), L, R, length_map.
  repeat split; try assumption.
  rewrite reported_app, spun_all_reported.
  change (reported prompt_command) with (@nil double). now rewrite app_nil_r.
Qed.

(** Two spins of player 1, bets 10 and 2.5, on the store of two players. *)
Lemma play_loop_history_witness :
  healthy (boot two_players no_faults (fun _ => 0%Z)) /\
  spin_history two_players = Some (mkTable [mkSpin 1 1 10 0 90] 1) /\
  no_quit [("p"%char, 10%float); ("p"%char, 2.5%float)] /\
  exists w',
    play_loop [TChar "p"; TDouble 10; TChar "p"; TDouble 2.5; TChar "q"] 1 100
              (boot two_players no_faults (fun _ => 0%Z)) = (Ok tt, w') /\
    history_rows (w_db w')
    = [mkSpin 1 1 10 0 90; mkSpin 2 1 10 0 90; mkSpin 3 1 2.5 0 87.5] /\
    reported (w_cout w') = [90%float; 87.5%float].
Proof.
  assert (H : healthy (boot two_players no_faults (fun _ => 0%Z))) by (intros n; reflexivity).
  assert (Hq : no_quit [("p"%char, 10%float); ("p"%char, 2.5%float)]) by (repeat constructor).
  split; [exact H|]. split; [reflexivity|]. split; [exact Hq|].
  destruct (play_loop_history 1 100 [] H (t := mkTable [mkSpin 1 1 10 0 90] 1) eq_refl Hq)
    as (w' & E & R & _ & _ & _ & _ & P).
  exists w'. split; [exact E|]. split; [exact R | exact P].
Defined.

(** ** The commands of the loop *)

Lemma token_pairs_ind (P : list token -> Prop) :
  P [] -> (forall t, P [t]) -> (forall t1 t2 l, P l -> P (t1 :: t2 :: l)) ->
  forall l, P l.
Proof.
  intros H0 H1 H2 l.
  assert (H : P l /\ forall t, P (t :: l)); [|exact (proj1 H)].
  induction l as [|t l [IH1 IH2]]; split; auto.
Qed.

Lemma play_loop_not_char t rest playerId balance w :
  (forall c, t <> TChar c) ->
  play_loop (t :: rest) playerId balance w = (BadInput, wrote prompt_command w).
Proof. intros H. destruct t; try reflexivity. now destruct (H c). Qed.

Lemma play_loop_no_bet c rest playerId balance w :
  Ascii.eqb c "q" = false ->
  (forall bet rest', rest <> TDouble bet :: rest') ->
  play_loop (TChar c :: rest) playerId balance w
  = (BadInput, wrote prompt_bet (wrote prompt_command w)).
Proof.
  intros Hc H. cbn [play_loop]. unfold bind at 1. unfold cout at 1.
  rewrite Hc. unfold bind at 1. unfold cout at 1.
  destruct rest as [|[] rest']; try reflexivity. now destruct (H d rest').
Qed.

Lemma spun_raw playerId balance bet w : w_raw (spun playerId balance bet w) = w_raw w.
Proof. unfold spun. cbn [w_raw wrote]. now rewrite !after_raw. Qed.

Lemma spun_drawn playerId balance bet w :
  w_drawn (spun playerId balance bet w) = (9 + w_drawn w)%nat.
Proof. unfold spun. cbn [w_drawn wrote]. now rewrite !after_drawn. Qed.

Lemma play_loop_ends input playerId :
  forall balance w r w',
    play_loop input playerId balance w = (r, w') ->
    (forall code, r <> Exit code) /\
    (r = Ok tt ->
     exists turns rest, no_quit turns /\ input = spins turns ++ TChar "q" :: rest).
Proof.
  induction input as [| t | t1 t2 input IH] using token_pairs_ind; intros balance w r w' E.
  - inversion E; subst. split; [discriminate | discriminate].
  - destruct t as [s | z | c | d];
      try (rewrite play_loop_not_char in E by discriminate;
           inversion E; subst; split; discriminate).
    destruct (Ascii.eqb c "q") eqn:Hc.
    + apply Ascii.eqb_eq in Hc. subst c. rewrite play_loop_quit in E.
      inversion E; subst. split; [discriminate|]. intros _. exists [], []. split; [constructor | reflexivity].
    + rewrite play_loop_no_bet in E by (exact Hc || discriminate).
      inversion E; subst. split; discriminate.
  - destruct t1 as [s | z | c | d];
      try (rewrite play_loop_not_char in E by discriminate;
           inversion E; subst; split; discriminate).
    destruct (Ascii.eqb c "q") eqn:Hc.
    + apply Ascii.eqb_eq in Hc. subst c. rewrite play_loop_quit in E.
      inversion E; subst. split; [discriminate|]. intros _. exists [], (t2 :: input). split; [constructor | reflexivity].
    + destruct t2 as [s | z | c2 | bet];
        try (rewrite play_loop_no_bet in E by (exact Hc || discriminate);
             inversion E; subst; split; discriminate).
      rewrite play_loop_spin in E by exact Hc.
      destruct (IH _ _ _ _ E) as [Hx Hok]. split; [exact Hx|].
      intros Hr. destruct (Hok Hr) as (turns & rest & Hq & ->).
      exists ((c, bet) :: turns), rest. split; [|reflexivity].
      constructor; [exact Hc | exact Hq].
Qed.

Lemma init_eq w : w_faults w (w_calls w) = false -> init w = (Ok tt, opened w).
Proof.
  intros H. unfold init, sqlite3_open, fault, createTables, opened.
  unfold bind at 1. unfold bind at 1. rewrite H. unfold ret at 1. cbv beta iota.
  cbn [negb rc_eqb]. cbv iota. unfold bind.
  rewrite !executeQuery_eq by reflexivity. reflexivity.
Qed.

Lemma init_fails w :
  w_faults w (w_calls w) = true -> init w = (Exit 1, complained diag_open (called w)).
Proof.
  intros H. unfold init, sqlite3_open, fault.
  unfold bind at 1. unfold bind at 1. rewrite H. reflexivity.
Qed.

Lemma main_eq name age card turns rest w :
  w_faults w (w_calls w) = false ->
  no_quit turns ->
  main (session name age card turns rest) w = (Ok 0%Z, finished name age card turns w).
Proof.
  intros H Hq. unfold main, session, finished. unfold bind at 1.
  rewrite init_eq by exact H. unfold bind at 1.
  rewrite play_eq, play_loop_spins by exact Hq. rewrite play_loop_quit. reflexivity.
Qed.

(** C7: in the loop, [q] ends [play], and with it the process with status
    0, after the command prompt alone; any other command character prompts
    for the bet and runs one spin - nine draws, the grid shown, the balance
    updated, the history row, the new balance printed - and the loop goes on
    with what is typed next. The loop never makes the process exit, and it
    returns only when a command [q] was read. *)
Theorem play_loop_commands (playerId : Z) (balance : double) (w : world) :
  (forall rest,
     play_loop (TChar "q" :: rest) playerId balance w = (Ok tt, wrote prompt_command w)) /\
  (forall c bet rest,
     Ascii.eqb c "q" = false ->
     play_loop (TChar c :: TDouble bet :: rest) playerId balance w
     = play_loop rest playerId (balance + (0 - bet))
         (spun playerId balance bet (wrote prompt_bet (wrote prompt_command w)))) /\
  (forall bet w0,
     w_drawn (spun playerId balance bet w0) = (9 + w_drawn w0)%nat /\
     w_cout (spun playerId balance bet w0)
     = w_cout w0 ++ shown (grid w0) ++ [Str "New Balance: "; Dbl (balance + (0 - bet)); Endl] /\
     w_trace (spun playerId balance bet w0)
     = w_trace w0 ++ [UpdateBalance (balance + (0 - bet)) playerId;
                      InsertSpin playerId bet 0 (balance + (0 - bet))]) /\
  (forall input r w',
     play_loop input playerId balance w = (r, w') ->
     (forall code, r <> Exit code) /\
     (r = Ok tt ->
      exists turns rest, no_quit turns /\ input = spins turns ++ TChar "q" :: rest)) /\
  (forall name age card turns rest w0,
     w_faults w0 (w_calls w0) = false ->
     no_quit turns ->
     fst (main (session name age card turns rest) w0) = Ok 0%Z).
Proof.
  split; [intros; apply play_loop_quit|].
  split; [intros; now apply play_loop_spin|].
  split; [intros; split; [apply spun_drawn | split; [apply spun_cout | apply spun_trace]]|].
  split; [intros input r w' E; exact (play_loop_ends _ _ _ _ E)|].
  intros. now rewrite main_eq.
Qed.

(** ** Failures *)

Lemma after_failed s d w : attempt s w = None -> after s d w = complained d (sent s w).
Proof. intros H. unfold after. now rewrite H. Qed.

Lemma grid_same w1 w2 : w_raw w1 = w_raw w2 -> w_drawn w1 = w_drawn w2 -> grid w1 = grid w2.
Proof. intros R D. unfold grid, draw. now rewrite R, D. Qed.

Lemma same_io_wrote l w1 w2 : same_io w1 w2 -> same_io (wrote l w1) (wrote l w2).
Proof. intros (C & R & D). unfold same_io. cbn. now rewrite C, R, D. Qed.

Lemma same_io_spun playerId balance bet w1 w2 :
  same_io w1 w2 -> same_io (spun playerId balance bet w1) (spun playerId balance bet w2).
Proof.
  intros (C & R & D). unfold same_io.
  rewrite !spun_cout, !spun_raw, !spun_drawn, (grid_same _ _ R D), C, R, D. auto.
Qed.

Lemma play_loop_oblivious input playerId :
  forall balance w1 w2,
    same_io w1 w2 ->
    fst (play_loop input playerId balance w1) = fst (play_loop input playerId balance w2) /\
    same_io (snd (play_loop input playerId balance w1))
            (snd (play_loop input playerId balance w2)).
Proof.
  induction input as [| t | t1 t2 input IH] using token_pairs_ind; intros balance w1 w2 S.
  - split; [reflexivity|]. now apply same_io_wrote.
  - destruct t as [s | z | c | d];
      try (rewrite !play_loop_not_char by discriminate;
           split; [reflexivity | now apply same_io_wrote]).
    destruct (Ascii.eqb c "q") eqn:Hc.
    + apply Ascii.eqb_eq in Hc. subst c. rewrite !play_loop_quit.
      split; [reflexivity | now apply same_io_wrote].
    + rewrite !play_loop_no_bet by (exact Hc || discriminate).
      split; [reflexivity | now apply same_io_wrote, same_io_wrote].
  - destruct t1 as [s | z | c | d];
      try (rewrite !play_loop_not_char by discriminate;
           split; [reflexivity | now apply same_io_wrote]).
    destruct (Ascii.eqb c "q") eqn:Hc.
    + apply Ascii.eqb_eq in Hc. subst c. rewrite !play_loop_quit.
      split; [reflexivity | now apply same_io_wrote].
    + destruct t2 as [s | z | c2 | bet];
        try (rewrite !play_loop_no_bet by (exact Hc || discriminate);
             split; [reflexivity | now apply same_io_wrote, same_io_wrote]).
      rewrite !play_loop_spin by exact Hc.
      apply IH. now apply same_io_spun, same_io_wrote, same_io_wrote.
Qed.

(** C8: a file that cannot be opened ends the process at once with status
    1 and the diagnostic on the error stream, before any statement is sent
    and with nothing printed. A failure of schema creation, of the player
    insert, of the balance update or of the history insert leaves the
    database and the output as they were, adds the one diagnostic to the
    error stream and returns to the caller like a success; the constructor
    goes on to the second table after the first, and what the loop prints
    and how it ends depend on neither the database nor the failures. *)
Theorem failures_reported_and_ignored :
  (forall input w,
     w_faults w (w_calls w) = true ->
     main input w = (Exit 1, complained diag_open (called w))) /\
  (forall w,
     w_faults w (w_calls w) = false ->
     init w = (Ok tt, after CreateHistory diag_exec (after CreatePlayers diag_exec (called w)))) /\
  (forall query w,
     is_command query = true ->
     fst (executeQuery query w) = Ok tt /\
     (attempt query w = None ->
      snd (executeQuery query w) = complained diag_exec (sent query w))) /\
  (forall name age card w,
     fst (addPlayer name age card w) = Ok tt /\
     (attempt (InsertPlayer name age card) w = None ->
      snd (addPlayer name age card w)
      = complained diag_add (sent (InsertPlayer name age card) w))) /\
  (forall playerId newBalance w,
     fst (updateBalance playerId newBalance w) = Ok tt /\
     (attempt (UpdateBalance newBalance playerId) w = None ->
      snd (updateBalance playerId newBalance w)
      = complained diag_update (sent (UpdateBalance newBalance playerId) w))) /\
  (forall playerId bet winnings balance w,
     fst (saveSpinHistory playerId bet winnings balance w) = Ok tt /\
     (attempt (InsertSpin playerId bet winnings balance) w = None ->
      snd (saveSpinHistory playerId bet winnings balance w)
      = complained diag_history (sent (InsertSpin playerId bet winnings balance) w))) /\
  (forall input playerId balance w1 w2,
     same_io w1 w2 ->
     fst (play_loop input playerId balance w1) = fst (play_loop input playerId balance w2) /\
     w_cout (snd (play_loop input playerId balance w1))
     = w_cout (snd (play_loop input playerId balance w2))).
Proof.
  split.
  { intros input w H. unfold main. unfold bind at 1. now rewrite init_fails. }
  split; [exact init_eq|].
  split.
  { intros q w Hq. rewrite executeQuery_eq by exact Hq.
    split; [reflexivity | apply after_failed]. }
  split.
  { intros. rewrite addPlayer_eq. split; [reflexivity | apply after_failed]. }
  split.
  { intros. rewrite updateBalance_eq. split; [reflexivity | apply after_failed]. }
  split.
  { intros. rewrite saveSpinHistory_eq. split; [reflexivity | apply after_failed]. }
  intros input playerId balance w1 w2 S.
  destruct (play_loop_oblivious input playerId balance S) as [E (C & _)]. now split.
Qed.

(** ** Sessions on a working store *)

Lemma to_int_small z : (- 2 ^ 31 <= z < 2 ^ 31)%Z -> to_int z = z.
Proof. intros H. unfold to_int. rewrite Z.mod_small; lia. Qed.

Lemma lookup_in db name age card r :
  lookup db name age card = Some r ->
  In r (player_rows db) /\ matches name age card r = true.
Proof. apply find_some. Qed.

Lemma ids_ok_row db r :
  ids_ok db -> In r (player_rows db) -> (1 <= p_id r < next_id db)%Z /\ (next_id db < 2 ^ 31)%Z.
Proof.
  intros [Hs Hr] Hin. rewrite Forall_forall in Hr. specialize (Hr r Hin). cbn in *. lia.
Qed.

Lemma ids_ok_next db : ids_ok db -> (1 <= next_id db < 2 ^ 31)%Z.
Proof. now intros [H _]. Qed.

Lemma found_healthy name age card w :
  healthy w ->
  found name age card w
  = match lookup (w_db w) name age card with
    | Some r => to_int (p_id r)
    | None => (-1)%Z
    end.
Proof.
  intros H. unfold found, lookup, player_rows. rewrite H.
  destruct (players (w_db w)); reflexivity.
Qed.

Lemma found_absent name age card w :
  lookup (w_db w) name age card = None -> found name age card w = (-1)%Z.
Proof.
  unfold found, lookup, player_rows. intros H.
  destruct (w_faults w (w_calls w)); [reflexivity|].
  destruct (players (w_db w)); [|reflexivity]. cbn in H. now rewrite H.
Qed.

Lemma matches_refl name age card id balance :
  matches name age card (mkPlayer id name age card balance) = true.
Proof. unfold matches. cbn. now rewrite !String.eqb_refl, Z.eqb_refl. Qed.

Lemma find_last {A} (f : A -> bool) l x :
  find f l = None -> f x = true -> find f (l ++ [x]) = Some x.
Proof.
  intros Hl Hx. induction l as [|y l IH]; cbn in *; [now rewrite Hx|].
  destruct (f y); [discriminate | auto].
Qed.

Lemma find_first {A} (f : A -> bool) l l' x :
  find f l = Some x -> find f (l ++ l') = Some x.
Proof.
  intros Hl. induction l as [|y l IH]; cbn in *; [discriminate|].
  destruct (f y); auto.
Qed.

Lemma exec_insert_players name age card db t :
  players db = Some t ->
  players (exec (InsertPlayer name age card) db)
  = Some (mkTable (rows t ++ [mkPlayer (seq t + 1) name age card 0]) (seq t + 1)).
Proof. intros H. unfold exec. cbn. now rewrite H. Qed.

Lemma exec_insert_history name age card db :
  spin_history (exec (InsertPlayer name age card) db) = spin_history db.
Proof. unfold exec. cbn. destruct (players db) eqn:E; cbn; rewrite ?E; reflexivity. Qed.

Lemma unaffected id (l : list player) balance :
  Forall (fun r => p_id r <> id) l -> map (set_balance balance id) l = l.
Proof.
  induction 1 as [|r l Hr _ IH]; [reflexivity|].
  cbn. now rewrite IH, set_balance_other.
Qed.

(** The database the constructor leaves on a working store. *)
Lemma exec_create db :
  player_rows (exec_all [CreatePlayers; CreateHistory] db) = player_rows db /\
  history_rows (exec_all [CreatePlayers; CreateHistory] db) = history_rows db /\
  next_id (exec_all [CreatePlayers; CreateHistory] db) = next_id db /\
  history_seq (exec_all [CreatePlayers; CreateHistory] db) = history_seq db /\
  (exists t, players (exec_all [CreatePlayers; CreateHistory] db) = Some t) /\
  (exists t, spin_history (exec_all [CreatePlayers; CreateHistory] db) = Some t).
Proof.
  unfold player_rows, history_rows, next_id, history_seq. cbn.
  destruct (players db), (spin_history db); cbn; repeat split; eauto.
Qed.

Lemma ran_opened w : healthy w -> ran [CreatePlayers; CreateHistory] w (opened w).
Proof.
  intros H. unfold opened.
  apply (ran_trans (l1 := [CreatePlayers]) (l2 := [CreateHistory])
                   (w2 := after CreatePlayers diag_exec (called w))).
  - apply (ran_trans (l1 := []) (l2 := [CreatePlayers]) (w2 := called w)).
    + unfold ran. cbn. now rewrite app_nil_r.
    + apply ran_after. exact H.
  - apply ran_after, healthy_after. exact H.
Qed.

(** Resolving on a working store whose [players] table exists. *)
Lemma resolving_healthy name age card w t :
  healthy w -> ids_ok (w_db w) -> players (w_db w) = Some t ->
  fst (resolving name age card w) = resolved_id (w_db w) name age card /\
  ran (resolve_trace (w_db w) name age card) w (snd (resolving name age card w)).
Proof.
  intros H Hok Ht. unfold resolving, resolved_id, resolve_trace.
  rewrite (@found_healthy _ _ _ _ H).
  destruct (lookup (w_db w) name age card) as [r|] eqn:L.
  - destruct (@lookup_in _ _ _ _ _ L) as [Hin _].
    destruct (@ids_ok_row _ _ Hok Hin) as [Hr Hn].
    rewrite to_int_small by lia.
    destruct (Z.eqb_spec (p_id r) (-1)) as [E|_]; [lia|].
    split; [reflexivity | apply ran_select].
  - cbn [Z.eqb fst snd].
    set (w1 := wrote new_player (sent (SelectPlayer name age card) w)).
    set (w2 := after (InsertPlayer name age card) diag_add w1).
    assert (R1 : ran [SelectPlayer name age card] w w1).
    { apply (ran_trans (l1 := [_]) (l2 := [])) with (w2 := sent (SelectPlayer name age card) w);
        [apply ran_select | apply ran_wrote]. }
    assert (H1 : healthy w1) by exact (ran_healthy R1 H).
    assert (R2 : ran [InsertPlayer name age card] w1 w2) by (apply ran_after; exact H1).
    assert (H2 : healthy w2) by exact (ran_healthy R2 H1).
    assert (D2 : players (w_db w2)
                 = Some (mkTable (rows t ++ [mkPlayer (seq t + 1) name age card 0]) (seq t + 1))).
    { destruct R2 as (_ & D & _). rewrite D. cbn [exec_all fold_left].
      apply exec_insert_players. exact Ht. }
    split.
    + rewrite (@found_healthy _ _ _ _ H2). unfold lookup, player_rows. rewrite D2. cbn [rows_of rows].
      unfold lookup, player_rows in L. rewrite Ht in L. cbn [rows_of] in L.
      rewrite (@find_last _ _ _ _ L (matches_refl _ _ _ _ _)). cbn [p_id].
      pose proof (@ids_ok_next _ Hok) as Hn. unfold next_id in *. rewrite Ht in *.
      apply to_int_small. lia.
    + apply (ran_trans (l1 := [_]) (l2 := [_; _]) R1).
      apply (ran_trans (l1 := [_]) (l2 := [_]) R2). apply ran_select.
Qed.

Lemma ids_ok_create db : ids_ok db -> ids_ok (exec_all [CreatePlayers; CreateHistory] db).
Proof.
  unfold ids_ok. destruct (exec_create db) as (-> & _ & -> & _). tauto.
Qed.

Lemma lookup_create db name age card :
  lookup (exec_all [CreatePlayers; CreateHistory] db) name age card = lookup db name age card.
Proof. unfold lookup. now rewrite (proj1 (exec_create db)). Qed.

(** A whole session on a working store: the id used, the statements sent and
    the database left. *)
Lemma session_healthy name age card turns w :
  healthy w -> ids_ok (w_db w) ->
  fst (logged name age card (wrote prompt_identity (opened w)))
  = resolved_id (w_db w) name age card /\
  ran ([CreatePlayers; CreateHistory] ++ resolve_trace (w_db w) name age card ++
       [UpdateBalance 100 (resolved_id (w_db w) name age card)])
      w (snd (logged name age card (wrote prompt_identity (opened w)))) /\
  ran (session_trace (w_db w) name age card (map snd turns)) w
      (finished name age card turns w).
Proof.
  intros H Hok.
  pose proof (ran_opened H) as R0.
  set (w0 := wrote prompt_identity (opened w)).
  assert (R0' : ran [CreatePlayers; CreateHistory] w w0).
  { apply (ran_trans (l1 := [_; _]) (l2 := []) R0). apply ran_wrote. }
  assert (H0 : healthy w0) by exact (ran_healthy R0' H).
  assert (D0 : w_db w0 = exec_all [CreatePlayers; CreateHistory] (w_db w)) by apply R0'.
  destruct (exec_create (w_db w)) as (_ & _ & N0 & _ & [t Ht] & _).
  assert (Hok0 : ids_ok (w_db w0)) by (rewrite D0; now apply ids_ok_create).
  rewrite <- D0 in Ht.
  destruct (@resolving_healthy name age card _ _ H0 Hok0 Ht) as [Eid R1].
  assert (Eid' : resolved_id (w_db w0) name age card = resolved_id (w_db w) name age card).
  { unfold resolved_id. rewrite D0, lookup_create, N0. reflexivity. }
  assert (Etr : resolve_trace (w_db w0) name age card = resolve_trace (w_db w) name age card).
  { unfold resolve_trace. rewrite D0, lookup_create. reflexivity. }
  rewrite Eid', Etr in *.
  assert (E : fst (logged name age card w0) = resolved_id (w_db w) name age card) by exact Eid.
  assert (R2 : ran ([CreatePlayers; CreateHistory] ++ resolve_trace (w_db w) name age card ++
                    [UpdateBalance 100 (resolved_id (w_db w) name age card)])
                   w (snd (logged name age card w0))).
  { apply (ran_trans R0'). apply (ran_trans R1). unfold logged. cbn [snd]. rewrite Eid.
    apply ran_after. exact (ran_healthy R1 H0). }
  split; [exact E|]. split; [exact R2|].
  unfold finished, session_trace. fold w0. rewrite E.
  replace ([CreatePlayers; CreateHistory] ++ resolve_trace (w_db w) name age card ++
           UpdateBalance 100 (resolved_id (w_db w) name age card)
             :: spin_trace (resolved_id (w_db w) name age card) 100 (map snd turns))
    with (([CreatePlayers; CreateHistory] ++ resolve_trace (w_db w) name age card ++
           [UpdateBalance 100 (resolved_id (w_db w) name age card)])
          ++ spin_trace (resolved_id (w_db w) name age card) 100 (map snd turns) ++ []).
  2:{ rewrite app_nil_r, <- !app_assoc. reflexivity. }
  apply (ran_trans R2).
  apply ran_trans with (w2 := snd (spun_all (resolved_id (w_db w) name age card) 100 turns
                                           (snd (logged name age card w0))));
    [|apply ran_wrote].
  apply ran_spun_all. exact (ran_healthy R2 H).
Qed.

(** ** The database a session leaves *)

Lemma exec_all_app l1 l2 db : exec_all (l1 ++ l2) db = exec_all l2 (exec_all l1 db).
Proof. apply fold_left_app. Qed.

Lemma exec_resolve db name age card t :
  players db = Some t ->
  player_rows (exec_all (resolve_trace db name age card) db) = enrolled db name age card /\
  spin_history (exec_all (resolve_trace db name age card) db) = spin_history db.
Proof.
  intros Ht. unfold resolve_trace, enrolled.
  destruct (lookup db name age card); cbn [exec_all fold_left]; rewrite !exec_select.
  - now rewrite app_nil_r.
  - unfold player_rows, next_id. rewrite (exec_insert_players _ _ _ _ Ht), Ht.
    split; [reflexivity | apply exec_insert_history].
Qed.

Lemma exec_login db name age card :
  player_rows (exec_all ([CreatePlayers; CreateHistory] ++ resolve_trace db name age card) db)
  = enrolled db name age card /\
  exists t,
    spin_history (exec_all ([CreatePlayers; CreateHistory] ++ resolve_trace db name age card) db)
    = Some t /\ rows t = history_rows db /\ seq t = history_seq db.
Proof.
  rewrite exec_all_app.
  destruct (exec_create db) as (P & Hh & N & S & [t Ht] & [h Hs]).
  assert (E : resolve_trace db name age card
              = resolve_trace (exec_all [CreatePlayers; CreateHistory] db) name age card).
  { unfold resolve_trace. now rewrite lookup_create. }
  rewrite E. destruct (exec_resolve _ name age card Ht) as [-> ->].
  split.
  - unfold enrolled. now rewrite lookup_create, P, N.
  - exists h. split; [exact Hs|].
    unfold history_rows, history_seq in Hh, S. rewrite Hs in Hh, S. now split.
Qed.

Lemma session_rows db name age card bets :
  player_rows (exec_all (session_trace db name age card bets) db)
  = map (set_balance (last (running 100 bets) 100%float) (resolved_id db name age card))
        (enrolled db name age card) /\
  history_rows (exec_all (session_trace db name age card bets) db)
  = history_rows db ++ records (history_seq db) (resolved_id db name age card) 100 bets.
Proof.
  unfold session_trace. rewrite app_assoc, exec_all_app.
  destruct (exec_login db name age card) as (P & t & Hs & Hr & Hq).
  split.
  - now rewrite exec_spins_players, P.
  - cbn [exec_all fold_left]. fold (exec_all (spin_trace (resolved_id db name age card) 100 bets)).
    erewrite exec_spins_history by (rewrite exec_update_history; exact Hs).
    now rewrite Hr, Hq.
Qed.

Lemma login_rows db name age card :
  player_rows (exec_all ([CreatePlayers; CreateHistory] ++ resolve_trace db name age card ++
                         [UpdateBalance 100 (resolved_id db name age card)]) db)
  = map (set_balance 100 (resolved_id db name age card)) (enrolled db name age card).
Proof.
  rewrite app_assoc, exec_all_app. cbn [exec_all fold_left].
  rewrite exec_update_players. now rewrite (proj1 (exec_login db name age card)).
Qed.

Lemma find_rebalanced name age card balance id l :
  find (matches name age card) (map (set_balance balance id) l)
  = option_map (set_balance balance id) (find (matches name age card) l).
Proof.
  induction l as [|r l IH]; [reflexivity|].
  cbn [map find]. rewrite matches_set_balance.
  destruct (matches name age card r); [reflexivity | exact IH].
Qed.

(** An identity that is in the table keeps the row it resolves to, up to the
    balance, when an identity is enrolled and a balance is set. *)
Lemma lookup_kept name age card balance id db name' age' card' r :
  find (matches name age card) (player_rows db) = Some r ->
  find (matches name age card)
       (map (set_balance balance id) (enrolled db name' age' card'))
  = Some (set_balance balance id r).
Proof.
  intros H. rewrite find_rebalanced. unfold enrolled.
  now rewrite (find_first _ _ _ H).
Qed.

Lemma enrolled_new db name age card balance :
  ids_ok db -> lookup db name age card = None ->
  map (set_balance balance (resolved_id db name age card)) (enrolled db name age card)
  = player_rows db ++ [mkPlayer (next_id db) name age card balance].
Proof.
  intros [Hn Hr] L. unfold resolved_id, enrolled. rewrite L, map_app.
  rewrite unaffected.
  - cbn. unfold set_balance. cbn. now rewrite Z.eqb_refl.
  - eapply Forall_impl; [|exact Hr]. cbn. intros r H. lia.
Qed.

Lemma exec_spins_next playerId balance bets db :
  next_id (exec_all (spin_trace playerId balance bets) db) = next_id db.
Proof.
  revert balance db. induction bets as [|bet bets IH]; intros balance db; [reflexivity|].
  cbn [spin_trace exec_all fold_left].
  fold (exec_all (spin_trace playerId (balance + (0 - bet)) bets)).
  rewrite IH. unfold next_id at 1. rewrite exec_spin_players.
  apply exec_update_next.
Qed.

Lemma session_next_known db name age card bets r :
  lookup db name age card = Some r ->
  next_id (exec_all (session_trace db name age card bets) db) = next_id db.
Proof.
  intros L. unfold session_trace, resolve_trace. rewrite L.
  rewrite exec_all_app. cbn [app exec_all fold_left].
  fold (exec_all (spin_trace (resolved_id db name age card) 100 bets)).
  rewrite exec_spins_next, exec_update_next, exec_select.
  apply (exec_create db).
Qed.

Lemma two_players_ok : ids_ok two_players.
Proof. split; [cbn; lia | repeat constructor; cbn; lia]. Qed.

Lemma boot_healthy db raw : healthy (boot db no_faults raw).
Proof. intros n. reflexivity. Qed.

Lemma main_login_eq name age card rest w :
  w_faults w (w_calls w) = false ->
  main (TStr name :: TInt age :: TStr card :: rest) w
  = (play_loop rest (fst (logged name age card (wrote prompt_identity (opened w)))) 100 ;;
     close ;; ret 0%Z)
      (snd (logged name age card (wrote prompt_identity (opened w)))).
Proof.
  intros H. unfold main. unfold bind at 1. rewrite init_eq by exact H.
  unfold bind at 1. rewrite play_eq. reflexivity.
Qed.

(** C3: on a working store every session reaches the loop with the local
    balance 100.0, right after an update that sets the balance of the
    resolved id to 100.0: the row the identity resolves to then holds 100.0,
    and so does every row with that id, whatever balance the store held for
    the identity before - in particular the one a former session left. *)
Theorem login_resets_balance (name : string) (age : Z) (card : string) (w : world) :
  healthy w ->
  ids_ok (w_db w) ->
  exists id w1,
    (forall rest,
       main (TStr name :: TInt age :: TStr card :: rest) w
       = (play_loop rest id 100 ;; close ;; ret 0%Z) w1) /\
    (exists l, w_trace w1 = w_trace w ++ l ++ [UpdateBalance 100 id]) /\
    (exists r, lookup (w_db w1) name age card = Some r /\
               p_id r = id /\ p_balance r = 100%float) /\
    Forall (fun r => p_id r = id -> p_balance r = 100%float) (player_rows (w_db w1)).
Proof.
  intros H Hok.
  destruct (@session_healthy name age card [] w H Hok) as (E & (T & D & _) & _).
  exists (resolved_id (w_db w) name age card),
         (snd (logged name age card (wrote prompt_identity (opened w)))).
  split; [intros rest; rewrite main_login_eq by apply H; now rewrite E|].
  split.
  { exists ([CreatePlayers; CreateHistory] ++ resolve_trace (w_db w) name age card).
    rewrite T. now rewrite <- !app_assoc. }
  assert (P := login_rows (w_db w) name age card). rewrite <- D in P.
  split.
  - unfold lookup at 1. rewrite P.
    destruct (lookup (w_db w) name age card) as [r|] eqn:L.
    + exists (set_balance 100 (resolved_id (w_db w) name age card) r).
      split; [now apply lookup_kept|].
      unfold resolved_id. rewrite L. unfold set_balance. rewrite Z.eqb_refl. now split.
    + rewrite (@enrolled_new _ _ _ _ _ Hok L).
      exists (mkPlayer (next_id (w_db w)) name age card 100).
      split; [apply find_last; [exact L | apply matches_refl]|].
      unfold resolved_id. rewrite L. now split.
  - rewrite P. rewrite Forall_forall. intros r' Hin.
    apply in_map_iff in Hin. destruct Hin as (r & <- & _).
    destruct (set_balance_fields 100 (resolved_id (w_db w) name age card) r)
      as (I & _ & _ & _ & B).
    rewrite I, B. intros ->. now rewrite Z.eqb_refl.
Qed.

(** Alice comes back to the store that holds 90.0 for her. *)
Lemma login_resets_balance_witness :
  healthy (boot two_players no_faults (fun _ => 0%Z)) /\
  ids_ok two_players /\
  lookup two_players "Alice" 30 "1111" = Some (mkPlayer 1 "Alice" 30 "1111" 90) /\
  exists id w1 r,
    main [TStr "Alice"; TInt 30; TStr "1111"; TChar "q"]
         (boot two_players no_faults (fun _ => 0%Z))
    = (play_loop [TChar "q"] id 100 ;; close ;; ret 0%Z) w1 /\
    lookup (w_db w1) "Alice" 30 "1111" = Some r /\
    p_id r = id /\ p_balance r = 100%float.
Proof.
  split; [apply boot_healthy|]. split; [exact two_players_ok|]. split; [reflexivity|].
  destruct (@login_resets_balance "Alice" 30 "1111" _
              (boot_healthy two_players (fun _ => 0%Z)) two_players_ok)
    as (id & w1 & E & _ & (r & L & I & B) & _).
  exists id, w1, r. split; [apply E|]. now split.
Defined.

(** ** Well-formed stores *)

Lemma ids_ok_empty : ids_ok empty_db.
Proof. split; [cbn; lia | constructor]. Qed.

(** Every statement of the program keeps the store well formed, as long as
    the rowids of [players] stay below the largest [int]. *)
Lemma ids_ok_exec s db :
  ids_ok db -> (next_id db < 2 ^ 31 - 1)%Z -> ids_ok (exec s db).
Proof.
  intros [Hn Hr] Hb. destruct s.
  - unfold ids_ok, exec, player_rows, next_id in *. cbn.
    destruct (players db); cbn; [now split | split; [lia | constructor]].
  - unfold ids_ok, exec, player_rows, next_id in *. cbn. now split.
  - rewrite exec_select. now split.
  - unfold ids_ok, exec, player_rows, next_id in *. cbn.
    destruct (players db) as [t|] eqn:E; cbn; [|rewrite E; now split].
    split; [lia|]. apply Forall_app. split.
    + eapply Forall_impl; [|exact Hr]. cbn. intros r H. lia.
    + repeat constructor; cbn; lia.
  - unfold ids_ok. rewrite exec_update_players, exec_update_next. split; [exact Hn|].
    rewrite Forall_forall in *. intros r' Hin. apply in_map_iff in Hin.
    destruct Hin as (r & <- & Hin).
    rewrite (proj1 (set_balance_fields balance id r)). now apply Hr.
  - unfold ids_ok, player_rows, next_id in *. rewrite exec_spin_players. now split.
Qed.

(** ** New and known identities *)

(** C5: on a working store, a session for an identity no row matches adds
    exactly one row to [players], with the rowid the store assigns (the next
    of the AUTOINCREMENT counter) and the identity entered; that id is the one
    bound in the update that funds the player, in every update and every
    history row of the spins that follow, and a later lookup of the identity
    finds that row. *)
Theorem new_identity_enrolled (name : string) (age : Z) (card : string)
        (turns : list (ascii * double)) (rest : list token) (w : world) :
  healthy w ->
  ids_ok (w_db w) ->
  lookup (w_db w) name age card = None ->
  no_quit turns ->
  let id := next_id (w_db w) in
  let bets := map snd turns in
  exists w',
    main (session name age card turns rest) w = (Ok 0%Z, w') /\
    player_rows (w_db w')
    = player_rows (w_db w) ++ [mkPlayer id name age card (last (running 100 bets) 100%float)] /\
    w_trace w'
    = w_trace w ++
      [CreatePlayers; CreateHistory; SelectPlayer name age card;
       InsertPlayer name age card; SelectPlayer name age card; UpdateBalance 100 id]
      ++ spin_trace id 100 bets /\
    history_rows (w_db w')
    = history_rows (w_db w) ++ records (history_seq (w_db w)) id 100 bets /\
    lookup (w_db w') name age card
    = Some (mkPlayer id name age card (last (running 100 bets) 100%float)).
Proof.
  intros H Hok L Hq id bets.
  exists (finished name age card turns w).
  split; [apply main_eq; [apply H | exact Hq]|].
  destruct (@session_healthy name age card turns w H Hok) as (_ & _ & (T & D & _)).
  destruct (session_rows (w_db w) name age card bets) as [P Hh].
  fold bets in T, D. rewrite <- D in P, Hh.
  rewrite (@enrolled_new _ _ _ _ _ Hok L) in P.
  assert (Ei : resolved_id (w_db w) name age card = id)
    by (unfold resolved_id; now rewrite L).
  rewrite Ei in Hh.
  split; [exact P|]. split.
  { rewrite T. unfold session_trace, resolve_trace. rewrite L, Ei. reflexivity. }
  split; [exact Hh|].
  unfold lookup at 1. rewrite P. apply find_last; [exact L | apply matches_refl].
Qed.

(** Carol is new to the store of two players and plays one spin of 10. *)
Lemma new_identity_enrolled_witness :
  healthy (boot two_players no_faults (fun _ => 0%Z)) /\
  ids_ok two_players /\
  lookup two_players "Carol" 25 "3333" = None /\
  no_quit [("p"%char, 10%float)] /\
  exists w',
    main [TStr "Carol"; TInt 25; TStr "3333"; TChar "p"; TDouble 10; TChar "q"]
         (boot two_players no_faults (fun _ => 0%Z)) = (Ok 0%Z, w') /\
    player_rows (w_db w')
    = [mkPlayer 1 "Alice" 30 "1111" 90; mkPlayer 2 "Bob" 41 "2222" 20;
       mkPlayer 3 "Carol" 25 "3333" 90] /\
    w_trace w'
    = [CreatePlayers; CreateHistory; SelectPlayer "Carol" 25 "3333";
       InsertPlayer "Carol" 25 "3333"; SelectPlayer "Carol" 25 "3333";
       UpdateBalance 100 3; UpdateBalance 90 3; InsertSpin 3 10 0 90].
Proof.
  assert (Hq : no_quit [("p"%char, 10%float)]) by (repeat constructor).
  split; [apply boot_healthy|]. split; [exact two_players_ok|].
  split; [reflexivity|]. split; [exact Hq|].
  destruct (@new_identity_enrolled "Carol" 25 "3333" _ [] _
              (boot_healthy two_players (fun _ => 0%Z)) two_players_ok eq_refl Hq)
    as (w' & E & P & T & _).
  exists w'. split; [exact E|]. split; [exact P | exact T].
Defined.

(** C6: on a working store, a session for an identity some row matches
    sends no insert: it uses the id of the first matching row, the number of
    rows of [players] stays the same, and after the session every identity
    that was in the store still resolves to the id it resolved to before, in
    a store that is still well formed - so each later resolution of the
    triple returns that same id again. *)
Theorem known_identity_same_id (name : string) (age : Z) (card : string)
        (turns : list (ascii * double)) (rest : list token) (w : world) (r : player) :
  healthy w ->
  ids_ok (w_db w) ->
  lookup (w_db w) name age card = Some r ->
  no_quit turns ->
  exists w',
    main (session name age card turns rest) w = (Ok 0%Z, w') /\
    w_trace w'
    = w_trace w ++
      [CreatePlayers; CreateHistory; SelectPlayer name age card; UpdateBalance 100 (p_id r)]
      ++ spin_trace (p_id r) 100 (map snd turns) /\
    length (player_rows (w_db w')) = length (player_rows (w_db w)) /\
    map p_id (player_rows (w_db w')) = map p_id (player_rows (w_db w)) /\
    (forall name' age' card' r',
       lookup (w_db w) name' age' card' = Some r' ->
       exists r'', lookup (w_db w') name' age' card' = Some r'' /\ p_id r'' = p_id r') /\
    ids_ok (w_db w').
Proof.
  intros H Hok L Hq.
  exists (finished name age card turns w).
  split; [apply main_eq; [apply H | exact Hq]|].
  destruct (@session_healthy name age card turns w H Hok) as (_ & _ & (T & D & _)).
  destruct (session_rows (w_db w) name age card (map snd turns)) as [P _].
  pose proof (@session_next_known (w_db w) name age card (map snd turns) _ L) as N.
  rewrite <- D in P, N.
  assert (Ei : resolved_id (w_db w) name age card = p_id r)
    by (unfold resolved_id; now rewrite L).
  assert (En : enrolled (w_db w) name age card = player_rows (w_db w))
    by (unfold enrolled; rewrite L; apply app_nil_r).
  assert (Ids : map p_id (player_rows (w_db (finished name age card turns w)))
                = map p_id (player_rows (w_db w))).
  { rewrite P, En, map_map. apply map_ext. intros x. apply set_balance_fields. }
  split.
  { rewrite T. unfold session_trace, resolve_trace. rewrite L, Ei. reflexivity. }
  split; [rewrite P, En; apply length_map|].
  split; [exact Ids|].
  split.
  { intros name' age' card' r' L'. eexists. split.
    - unfold lookup. rewrite P. apply lookup_kept. exact L'.
    - apply set_balance_fields. }
  destruct Hok as [Hn Hr]. split; [now rewrite N|].
  rewrite N. rewrite Forall_forall in *. intros x Hx.
  apply (in_map p_id) in Hx. rewrite Ids in Hx.
  apply in_map_iff in Hx. destruct Hx as (y & <- & Hy). now apply Hr.
Qed.

(** Alice, known to the store with id 1, plays one spin of 10. *)
Lemma known_identity_same_id_witness :
  healthy (boot two_players no_faults (fun _ => 0%Z)) /\
  ids_ok two_players /\
  lookup two_players "Alice" 30 "1111" = Some (mkPlayer 1 "Alice" 30 "1111" 90) /\
  no_quit [("p"%char, 10%float)] /\
  exists w',
    main [TStr "Alice"; TInt 30; TStr "1111"; TChar "p"; TDouble 10; TChar "q"]
         (boot two_players no_faults (fun _ => 0%Z)) = (Ok 0%Z, w') /\
    w_trace w'
    = [CreatePlayers; CreateHistory; SelectPlayer "Alice" 30 "1111";
       UpdateBalance 100 1; UpdateBalance 90 1; InsertSpin 1 10 0 90] /\
    length (player_rows (w_db w')) = 2%nat.
Proof.
  assert (Hq : no_quit [("p"%char, 10%float)]) by (repeat constructor).
  split; [apply boot_healthy|]. split; [exact two_players_ok|].
  split; [reflexivity|]. split; [exact Hq|].
  destruct (@known_identity_same_id "Alice" 30 "1111" _ [] _ _
              (boot_healthy two_players (fun _ => 0%Z)) two_players_ok eq_refl Hq)
    as (w' & E & T & Len & _).
  exists w'. split; [exact E|]. split; [exact T | exact Len].
Defined.

(** ** Sessions whose player could not be enrolled *)

Lemma after_db_cases s d w :
  w_db (after s d w) = w_db w \/ w_db (after s d w) = exec s (w_db w).
Proof.
  rewrite after_db. unfold attempt, exec.
  destruct (w_faults w (w_calls w)); [now left|].
  destruct (eval s (w_db w)) as [[db v]|]; [now right | now left].
Qed.

Lemma exec_spin_rows playerId bet winnings balance db :
  exists new,
    history_rows (exec (InsertSpin playerId bet winnings balance) db)
    = history_rows db ++ new /\
    Forall (fun r => h_player_id r = playerId) new.
Proof.
  unfold exec, history_rows. cbn. destruct (spin_history db) as [t|] eqn:E; cbn.
  - eexists. split; [reflexivity|]. repeat constructor.
  - exists []. rewrite E. split; [reflexivity | constructor].
Qed.

Lemma exec_insert_rows name age card db :
  player_rows (exec (InsertPlayer name age card) db) = player_rows db \/
  player_rows (exec (InsertPlayer name age card) db)
  = player_rows db ++ [mkPlayer (next_id db) name age card 0].
Proof.
  unfold exec, player_rows, next_id. cbn. destruct (players db) as [t|] eqn:E; cbn.
  - now right.
  - left. now rewrite E.
Qed.

Lemma after_update_unmatched balance id d w :
  Forall (fun r => p_id r <> id) (player_rows (w_db w)) ->
  player_rows (w_db (after (UpdateBalance balance id) d w)) = player_rows (w_db w) /\
  history_rows (w_db (after (UpdateBalance balance id) d w)) = history_rows (w_db w).
Proof.
  intros H. destruct (after_db_cases (UpdateBalance balance id) d w) as [-> | ->];
    [now split|].
  unfold history_rows. rewrite exec_update_players, exec_update_history.
  split; [now apply unaffected | reflexivity].
Qed.

Lemma after_spin_rows playerId bet winnings balance d w :
  player_rows (w_db (after (InsertSpin playerId bet winnings balance) d w))
  = player_rows (w_db w) /\
  exists new,
    history_rows (w_db (after (InsertSpin playerId bet winnings balance) d w))
    = history_rows (w_db w) ++ new /\
    Forall (fun r => h_player_id r = playerId) new.
Proof.
  destruct (after_db_cases (InsertSpin playerId bet winnings balance) d w) as [-> | ->].
  - split; [reflexivity|]. exists []. split; [now rewrite app_nil_r | constructor].
  - unfold player_rows. rewrite exec_spin_players. split; [reflexivity|].
    apply exec_spin_rows.
Qed.

Lemma spun_unmatched playerId balance bet w :
  Forall (fun r => p_id r <> playerId) (player_rows (w_db w)) ->
  player_rows (w_db (spun playerId balance bet w)) = player_rows (w_db w) /\
  exists new,
    history_rows (w_db (spun playerId balance bet w)) = history_rows (w_db w) ++ new /\
    Forall (fun r => h_player_id r = playerId) new.
Proof.
  intros H. unfold spun. cbn [w_db wrote].
  set (w1 := wrote (shown (grid w)) (drawn 9 w)).
  assert (H1 : Forall (fun r => p_id r <> playerId) (player_rows (w_db w1))) by exact H.
  destruct (@after_update_unmatched (balance + (0 - bet))%float playerId diag_update w1 H1) as [P Hh].
  destruct (after_spin_rows playerId bet 0 (balance + (0 - bet)) diag_history
              (after (UpdateBalance (balance + (0 - bet)) playerId) diag_update w1))
    as [P' (new & Hh' & F)].
  split; [now rewrite P', P|].
  exists new. split; [now rewrite Hh', Hh | exact F].
Qed.

Lemma spun_all_unmatched playerId balance turns w :
  Forall (fun r => p_id r <> playerId) (player_rows (w_db w)) ->
  player_rows (w_db (snd (spun_all playerId balance turns w))) = player_rows (w_db w) /\
  exists new,
    history_rows (w_db (snd (spun_all playerId balance turns w)))
    = history_rows (w_db w) ++ new /\
    Forall (fun r => h_player_id r = playerId) new.
Proof.
  revert balance w. induction turns as [|[c bet] turns IH]; intros balance w H.
  - split; [reflexivity|]. exists []. split; [now rewrite app_nil_r | constructor].
  - cbn [spun_all].
    set (w1 := wrote prompt_bet (wrote prompt_command w)).
    assert (H1 : Forall (fun r => p_id r <> playerId) (player_rows (w_db w1))) by exact H.
    destruct (@spun_unmatched playerId balance bet w1 H1) as [P (new1 & Hh & F1)].
    assert (H2 : Forall (fun r => p_id r <> playerId)
                        (player_rows (w_db (spun playerId balance bet w1))))
      by now rewrite P.
    destruct (IH (balance + (0 - bet))%float _ H2) as [P' (new2 & Hh' & F2)].
    split; [now rewrite P', P|].
    exists (new1 ++ new2). split; [now rewrite Hh', Hh, <- app_assoc|].
    apply Forall_app. now split.
Qed.

Lemma ran_after_ok s d w :
  w_faults w (w_calls w) = false -> ran [s] w (after s d w).
Proof.
  intros H. unfold ran. rewrite after_trace, after_faults, after_db_ok by exact H.
  repeat split.
Qed.

Lemma spun_calls playerId balance bet w :
  w_calls (spun playerId balance bet w) = (2 + w_calls w)%nat.
Proof. unfold spun. cbn [w_calls wrote]. now rewrite !after_calls. Qed.

Lemma ran_spun_quiet playerId balance bet w :
  quiet w ->
  ran [UpdateBalance (balance + (0 - bet)) playerId;
       InsertSpin playerId bet 0 (balance + (0 - bet))] w (spun playerId balance bet w).
Proof.
  intros H. unfold spun.
  set (w1 := wrote (shown (grid w)) (drawn 9 w)).
  assert (R1 : ran [] w w1)
    by (apply (ran_trans (l1 := []) (l2 := [])) with (w2 := drawn 9 w);
        [apply ran_drawn | apply ran_wrote]).
  assert (F1 : w_faults w1 (w_calls w1) = false) by (apply (H (w_calls w)); lia).
  set (w2 := after (UpdateBalance (balance + (0 - bet)) playerId) diag_update w1).
  assert (F2 : w_faults w2 (w_calls w2) = false).
  { unfold w2. rewrite after_faults, after_calls. apply (H (S (w_calls w))). lia. }
  apply (ran_trans (l1 := [_; _]) (l2 := [])) with
    (w2 := after (InsertSpin playerId bet 0 (balance + (0 - bet))) diag_history w2);
    [|apply ran_wrote].
  apply (ran_trans (l1 := [_]) (l2 := [_])) with (w2 := w2); [|now apply ran_after_ok].
  apply (ran_trans (l1 := []) (l2 := [_]) R1). now apply ran_after_ok.
Qed.

Lemma ran_spun_all_quiet playerId balance turns w :
  quiet w ->
  ran (spin_trace playerId balance (map snd turns)) w
      (snd (spun_all playerId balance turns w)).
Proof.
  revert balance w. induction turns as [|[c bet] turns IH]; intros balance w H.
  - apply ran_refl.
  - cbn [spun_all map snd spin_trace].
    set (w1 := wrote prompt_bet (wrote prompt_command w)).
    assert (H1 : quiet w1) by exact H.
    apply (ran_trans (l1 := [_; _])) with (w2 := spun playerId balance bet w1).
    + apply (ran_trans (l1 := []) (l2 := [_; _])) with (w2 := w1);
        [|now apply ran_spun_quiet].
      apply (ran_trans (l1 := []) (l2 := [])) with (w2 := wrote prompt_command w);
        apply ran_wrote.
    + apply IH. intros k Hk. rewrite spun_faults. apply H1.
      rewrite spun_calls in Hk. lia.
Qed.

Lemma after_keeps_history s d w :
  is_command s = true -> s <> CreateHistory ->
  (forall p b w0 bal, s <> InsertSpin p b w0 bal) ->
  spin_history (w_db (after s d w)) = spin_history (w_db w).
Proof.
  intros _ N1 N2. destruct (after_db_cases s d w) as [-> | ->]; [reflexivity|].
  destruct s;
    [ unfold exec; cbn; reflexivity
    | congruence
    | now rewrite exec_select
    | apply exec_insert_history
    | apply exec_update_history
    | now destruct (N2 player_id bet winnings balance) ].
Qed.

(** C10: the lookup answers -1 when no row matches. When the identity is
    not in the store and the insert is not carried out, or the lookup after
    it fails, the session still runs to its end with the id -1: the update
    that funds the player and every update and history insert of the spins
    bind -1, the rows of [players] keep their balances (a row that was
    inserted keeps the default 0), no row has the id -1, and the history rows
    the session adds all refer to -1. When the history table is there and
    the engine works from the funding update on, the session adds exactly
    one history row per spin, each with player id -1, the bet and the balance
    of its spin. *)
Theorem failed_enrolment_plays_as_minus_one (name : string) (age : Z) (card : string)
        (turns : list (ascii * double)) (rest : list token) (w : world) :
  ids_ok (w_db w) ->
  lookup (w_db w) name age card = None ->
  no_quit turns ->
  attempt (InsertPlayer name age card) (called w) = None \/
  w_faults w (2 + w_calls w) = true ->
  fst (getPlayerID name age card w) = Ok (-1)%Z /\
  exists w',
    play (session name age card turns rest) w = (Ok tt, w') /\
    w_trace w'
    = w_trace w ++
      [SelectPlayer name age card; InsertPlayer name age card;
       SelectPlayer name age card; UpdateBalance 100 (-1)]
      ++ spin_trace (-1) 100 (map snd turns) /\
    (exists new,
       player_rows (w_db w') = player_rows (w_db w) ++ new /\
       (new = [] \/ new = [mkPlayer (next_id (w_db w)) name age card 0])) /\
    Forall (fun r => p_id r <> (-1)%Z) (player_rows (w_db w')) /\
    (exists new,
       history_rows (w_db w') = history_rows (w_db w) ++ new /\
       Forall (fun r => h_player_id r = (-1)%Z) new) /\
    (forall t,
       spin_history (w_db w) = Some t ->
       (forall k, (3 + w_calls w <= k)%nat -> w_faults w k = false) ->
       history_rows (w_db w')
       = rows t ++ records (seq t) (-1) 100 (map snd turns) /\
       length (records (seq t) (-1) 100 (map snd turns)) = length turns /\
       Forall (fun r => h_player_id r = (-1)%Z)
              (records (seq t) (-1) 100 (map snd turns))).
Proof.
  intros Hok L Hq Hfail.
  split; [rewrite getPlayerID_eq; cbn [fst]; now rewrite found_absent|].
  unfold session. rewrite play_eq, play_loop_spins by exact Hq. rewrite play_loop_quit.
  eexists. split; [reflexivity|]. cbn [w_trace w_db wrote].
  set (w0 := wrote prompt_identity w).
  set (w1 := wrote new_player (sent (SelectPlayer name age card) w0)).
  set (w2 := after (InsertPlayer name age card) diag_add w1).
  assert (L0 : lookup (w_db w0) name age card = None) by exact L.
  assert (R : resolving name age card w0 = (found name age card w2, sent (SelectPlayer name age card) w2)).
  { unfold resolving. now rewrite (@found_absent _ _ _ _ L0). }
  assert (Rows2 : player_rows (w_db w2) = player_rows (w_db w) \/
                  player_rows (w_db w2)
                  = player_rows (w_db w) ++ [mkPlayer (next_id (w_db w)) name age card 0]).
  { destruct (after_db_cases (InsertPlayer name age card) diag_add w1) as [E | E];
      fold w2 in E; rewrite E; [now left | apply exec_insert_rows]. }
  assert (Hist2 : history_rows (w_db w2) = history_rows (w_db w)).
  { destruct (after_db_cases (InsertPlayer name age card) diag_add w1) as [E | E];
      fold w2 in E; rewrite E; [reflexivity|].
    unfold history_rows. now rewrite exec_insert_history. }
  assert (F2 : found name age card w2 = (-1)%Z).
  { destruct Hfail as [Ha | Hf].
    - apply found_absent.
      assert (E : w_db w2 = w_db w).
      { unfold w2. rewrite after_db.
        change (attempt (InsertPlayer name age card) w1)
          with (attempt (InsertPlayer name age card) (called w)).
        now rewrite Ha. }
      now rewrite E.
    - unfold found. unfold w2 at 1 2. rewrite after_faults, after_calls.
      change (w_faults w1 (S (w_calls w1))) with (w_faults w (2 + w_calls w)).
      now rewrite Hf. }
  assert (No2 : Forall (fun r => p_id r <> (-1)%Z) (player_rows (w_db w2))).
  { destruct Hok as [Hn Hr].
    assert (Old : Forall (fun r => p_id r <> (-1)%Z) (player_rows (w_db w)))
      by (eapply Forall_impl; [|exact Hr]; cbn; intros; lia).
    destruct Rows2 as [-> | ->]; [exact Old|].
    apply Forall_app. split; [exact Old|]. repeat constructor. cbn. lia. }
  unfold logged. rewrite R, F2. cbn [fst snd].
  set (w3 := sent (SelectPlayer name age card) w2).
  assert (No3 : Forall (fun r => p_id r <> (-1)%Z) (player_rows (w_db w3))) by exact No2.
  destruct (@after_update_unmatched 100%float (-1)%Z diag_update w3 No3) as [P4 H4].
  set (w4 := after (UpdateBalance 100 (-1)) diag_update w3) in *.
  assert (No4 : Forall (fun r => p_id r <> (-1)%Z) (player_rows (w_db w4)))
    by now rewrite P4.
  destruct (@spun_all_unmatched (-1)%Z 100%float turns w4 No4) as [P5 (new & H5 & F5)].
  split.
  { rewrite spun_all_trace. unfold w4. rewrite after_trace. unfold w3, sent.
    cbn [w_trace traced called]. unfold w2. rewrite after_trace. unfold w1, sent.
    cbn [w_trace traced called wrote]. rewrite <- !app_assoc. reflexivity. }
  split.
  { rewrite P5, P4. change (player_rows (w_db w3)) with (player_rows (w_db w2)).
    destruct Rows2 as [-> | ->].
    - exists []. split; [now rewrite app_nil_r | now left].
    - eexists. split; [reflexivity | now right]. }
  split; [now rewrite P5|].
  split.
  { exists new. split; [|exact F5].
    rewrite H5, H4. change (history_rows (w_db w3)) with (history_rows (w_db w2)).
    now rewrite Hist2. }
  intros t Ht Hquiet.
  assert (Hs4 : spin_history (w_db w4) = Some t).
  { unfold w4. rewrite after_keeps_history by (reflexivity || discriminate).
    change (spin_history (w_db w3)) with (spin_history (w_db w2)).
    unfold w2. rewrite after_keeps_history by (reflexivity || discriminate).
    exact Ht. }
  assert (Q4 : quiet w4).
  { intros k Hk. unfold w4 in *. rewrite after_faults. rewrite after_calls in Hk.
    change (w_faults w3) with (w_faults w2). change (w_calls w3) with (S (w_calls w2)) in Hk.
    unfold w2 in *. rewrite after_faults. rewrite after_calls in Hk.
    change (w_faults w1) with (w_faults w). change (w_calls w1) with (S (w_calls w)) in Hk.
    apply Hquiet. lia. }
  destruct (ran_spun_all_quiet (-1) 100 turns Q4) as (_ & D5 & _).
  destruct (records_facts (seq t) (-1) 100 (map snd turns)) as (Len & Frec & _ & _).
  rewrite D5, (exec_spins_history _ _ _ _ Hs4).
  split; [reflexivity|]. split; [now rewrite Len, length_map|].
  eapply Forall_impl; [|exact Frec]. now intros r [Hr _].
Qed.

(** Carol is new, the insert is the call that fails, and she plays one spin
    of 10: the history gets a row for player -1. *)
Lemma failed_enrolment_plays_as_minus_one_witness :
  ids_ok two_players /\
  lookup two_players "Carol" 25 "3333" = None /\
  no_quit [("p"%char, 10%float)] /\
  attempt (InsertPlayer "Carol" 25 "3333")
          (called (boot two_players (fails_at 1) (fun _ => 0%Z))) = None /\
  exists w',
    play [TStr "Carol"; TInt 25; TStr "3333"; TChar "p"; TDouble 10; TChar "q"]
         (boot two_players (fails_at 1) (fun _ => 0%Z)) = (Ok tt, w') /\
    w_trace w'
    = [SelectPlayer "Carol" 25 "3333"; InsertPlayer "Carol" 25 "3333";
       SelectPlayer "Carol" 25 "3333"; UpdateBalance 100 (-1);
       UpdateBalance 90 (-1); InsertSpin (-1) 10 0 90] /\
    history_rows (w_db w') = [mkSpin 1 1 10 0 90; mkSpin 2 (-1) 10 0 90].
Proof.
  assert (Hq : no_quit [("p"%char, 10%float)]) by (repeat constructor).
  split; [exact two_players_ok|]. split; [reflexivity|]. split; [exact Hq|].
  split; [reflexivity|].
  destruct (@failed_enrolment_plays_as_minus_one "Carol" 25 "3333" _ []
              (boot two_players (fails_at 1) (fun _ => 0%Z))
              two_players_ok eq_refl Hq (or_introl eq_refl))
    as (_ & w' & E & T & _ & _ & _ & Hrows).
  exists w'. split; [exact E|]. split; [exact T|].
  refine (proj1 (Hrows (mkTable [mkSpin 1 1 10 0 90] 1) eq_refl _)).
  intros [|[|[|k]]] Hk; try (exfalso; cbn in Hk; lia); reflexivity.
Defined.

(** ** The scenarios of the specification *)

(** Alice, new to an empty store, bets 10 and quits: one player row with
    balance 90, one history row (bet 10, winnings 0, balance 90), status 0. *)
Example alice_first_session :
  let r := main [TStr "Alice"; TInt 30; TStr "1111"; TChar "p"; TDouble 10; TChar "q"]
                (boot empty_db no_faults (fun _ => 0%Z)) in
  fst r = Ok 0%Z /\
  player_rows (w_db (snd r)) = [mkPlayer 1 "Alice" 30 "1111" 90] /\
  history_rows (w_db (snd r)) = [mkSpin 1 1 10 0 90] /\
  reported (w_cout (snd r)) = [90%float] /\
  w_cerr (snd r) = [].
Proof. vm_compute. repeat split. Qed.

(** Alice comes back and quits at once: her balance is 100 again. *)
Example alice_second_session :
  let db := w_db (snd (main [TStr "Alice"; TInt 30; TStr "1111"; TChar "p"; TDouble 10; TChar "q"]
                            (boot empty_db no_faults (fun _ => 0%Z)))) in
  let r := main [TStr "Alice"; TInt 30; TStr "1111"; TChar "q"]
                (boot db no_faults (fun _ => 0%Z)) in
  fst r = Ok 0%Z /\
  player_rows (w_db (snd r)) = [mkPlayer 1 "Alice" 30 "1111" 100] /\
  history_rows (w_db (snd r)) = [mkSpin 1 1 10 0 90].
Proof. vm_compute. repeat split. Qed.

(** The file cannot be opened: status 1, the diagnostic, nothing else. *)
Example open_fails :
  let r := main [TStr "Alice"; TInt 30; TStr "1111"; TChar "q"]
                (boot empty_db (fails_at 0) (fun _ => 0%Z)) in
  fst r = Exit 1 /\
  w_cerr (snd r) = [Str "Error opening database."; Endl] /\
  w_cout (snd r) = [] /\ w_trace (snd r) = [] /\ w_db (snd r) = empty_db.
Proof. vm_compute. repeat split. Qed.

(** * Further properties of the program *)

(** ** The shape of the input *)

Lemma wrote_wrote l1 l2 w : wrote l2 (wrote l1 w) = wrote (l1 ++ l2) w.
Proof. unfold wrote. cbn. now rewrite app_assoc. Qed.

Lemma play_shape input :
  (exists name age card rest, input = TStr name :: TInt age :: TStr card :: rest) \/
  (exists l, forall w, play input w = (BadInput, wrote l w)).
Proof.
  destruct input as [|[n | | |] [|[| a | |] [|[c | | |] rest]]];
    try (right; eexists; intros w; cbv [play bind cout bad_input];
         rewrite ?wrote_wrote; reflexivity).
  left. now exists n, a, c, rest.
Qed.

Lemma play_loop_shape input :
  (exists l, forall playerId balance w,
     play_loop input playerId balance w = (BadInput, wrote l w)) \/
  (exists rest, input = TChar "q" :: rest) \/
  (exists c bet rest,
     Ascii.eqb c "q" = false /\ input = TChar c :: TDouble bet :: rest).
Proof.
  destruct input as [|t rest].
  { left. exists prompt_command. reflexivity. }
  destruct t as [s | z | c | d];
    try (left; exists prompt_command; intros; apply play_loop_not_char; discriminate).
  destruct (Ascii.eqb c "q") eqn:Hc.
  { apply Ascii.eqb_eq in Hc. subst c. right. left. now exists rest. }
  destruct rest as [|[s | z | c2 | bet] rest];
    try (left; exists (prompt_command ++ prompt_bet); intros;
         rewrite play_loop_no_bet by (exact Hc || discriminate);
         now rewrite wrote_wrote).
  right. right. now exists c, bet, rest.
Qed.

Lemma main_open_ok input w :
  w_faults w (w_calls w) = false ->
  main input w
  = (match fst (play input (opened w)) with
     | Ok _ => Ok 0%Z
     | Exit code => Exit code
     | BadInput => BadInput
     end, snd (play input (opened w))).
Proof.
  intros H. unfold main. unfold bind at 1. rewrite init_eq by exact H.
  unfold bind, close, ret. destruct (play input (opened w)) as [[[] | code |] w']; reflexivity.
Qed.

Lemma main_open_fails input w :
  w_faults w (w_calls w) = true ->
  main input w = (Exit 1, complained diag_open (called w)).
Proof. intros H. unfold main. unfold bind at 1. now rewrite init_fails. Qed.

(** ** What every run keeps *)

Section Kept.

(** A relation between the world before and the world after that each
    elementary step of the process respects. *)
Variable R : world -> world -> Prop.
Hypothesis R_refl : forall w, R w w.
Hypothesis R_trans : forall w1 w2 w3, R w1 w2 -> R w2 w3 -> R w1 w3.
Hypothesis R_wrote : forall l w, R w (wrote l w).
Hypothesis R_complained : forall l w, R w (complained l w).
Hypothesis R_called : forall w, R w (called w).
Hypothesis R_drawn : forall n w, R w (drawn n w).
Hypothesis R_sent : forall s w, R w (sent s w).
Hypothesis R_after : forall s d w, R w (after s d w).

Lemma spun_kept playerId balance bet w : R w (spun playerId balance bet w).
Proof.
  unfold spun.
  eapply R_trans; [|apply R_wrote]. eapply R_trans; [|apply R_after].
  eapply R_trans; [|apply R_after]. eapply R_trans; [apply R_drawn | apply R_wrote].
Qed.

Lemma logged_kept name age card w : R w (snd (logged name age card w)).
Proof.
  unfold logged. cbn [snd]. eapply R_trans; [|apply R_after].
  unfold resolving. destruct (Z.eqb (found name age card w) (-1)); cbn [snd].
  - eapply R_trans; [|apply R_sent]. eapply R_trans; [|apply R_after].
    eapply R_trans; [apply R_sent | apply R_wrote].
  - apply R_sent.
Qed.

Lemma play_loop_kept input playerId :
  forall balance w, R w (snd (play_loop input playerId balance w)).
Proof.
  induction input as [| t | t1 t2 input IH] using token_pairs_ind; intros balance w.
  - apply R_wrote.
  - destruct (play_loop_shape [t]) as [[l E] | [[rest E] | (c & bet & rest & _ & E)]].
    + rewrite E. apply R_wrote.
    + rewrite E, play_loop_quit. apply R_wrote.
    + discriminate E.
  - destruct (play_loop_shape (t1 :: t2 :: input))
      as [[l E] | [[rest E] | (c & bet & rest & Hc & E)]].
    + rewrite E. apply R_wrote.
    + rewrite E, play_loop_quit. apply R_wrote.
    + injection E as -> -> ->. rewrite play_loop_spin by exact Hc.
      eapply R_trans; [|apply IH].
      eapply R_trans; [|apply spun_kept].
      eapply R_trans; apply R_wrote.
Qed.

Lemma play_kept input w : R w (snd (play input w)).
Proof.
  destruct (play_shape input) as [(name & age & card & rest & ->) | [l E]].
  - rewrite play_eq. eapply R_trans; [|apply play_loop_kept].
    eapply R_trans; [apply R_wrote | apply logged_kept].
  - rewrite E. apply R_wrote.
Qed.

Lemma main_kept input w : R w (snd (main input w)).
Proof.
  destruct (w_faults w (w_calls w)) eqn:H.
  - rewrite main_open_fails by exact H. cbn [snd].
    eapply R_trans; [apply R_called | apply R_complained].
  - rewrite main_open_ok by exact H. cbn [snd].
    eapply R_trans; [|apply play_kept]. unfold opened.
    eapply R_trans; [|apply R_after]. eapply R_trans; [apply R_called | apply R_after].
Qed.

End Kept.

Lemma grows_refl db : grows db db.
Proof. split; exists []; now rewrite app_nil_r. Qed.

Lemma grows_trans db1 db2 db3 : grows db1 db2 -> grows db2 db3 -> grows db1 db3.
Proof.
  intros [[h1 H1] [p1 P1]] [[h2 H2] [p2 P2]]. split.
  - exists (h1 ++ h2). now rewrite H2, H1, app_assoc.
  - exists (p1 ++ p2). now rewrite P2, P1, app_assoc.
Qed.

Lemma identity_set_balance balance id r : identity (set_balance balance id r) = identity r.
Proof. unfold identity, set_balance. destruct (Z.eqb (p_id r) id); reflexivity. Qed.

Lemma grows_exec s db : grows db (exec s db).
Proof.
  destruct s.
  - unfold grows, exec, history_rows, player_rows. cbn.
    destruct (players db); split; exists []; now rewrite app_nil_r.
  - unfold grows, exec, history_rows, player_rows. cbn.
    destruct (spin_history db); split; exists []; now rewrite app_nil_r.
  - rewrite exec_select. apply grows_refl.
  - split.
    + exists []. unfold history_rows. now rewrite exec_insert_history, app_nil_r.
    + destruct (exec_insert_rows name age card db) as [-> | ->].
      * exists []. now rewrite app_nil_r.
      * eexists. now rewrite map_app.
  - split.
    + exists []. unfold history_rows. now rewrite exec_update_history, app_nil_r.
    + exists []. rewrite exec_update_players, map_map, app_nil_r.
      apply map_ext. intros r. apply identity_set_balance.
  - split.
    + destruct (exec_spin_rows player_id bet winnings balance db) as (new & E & _).
      now exists new.
    + exists []. unfold player_rows. now rewrite exec_spin_players, app_nil_r.
Qed.

Lemma grows_after s d w : grows (w_db w) (w_db (after s d w)).
Proof.
  destruct (after_db_cases s d w) as [-> | ->]; [apply grows_refl | apply grows_exec].
Qed.

(** X1: whatever fails, a session only adds to the store. For a session
    typed as the program expects - a name, an age in the range of [int], a
    card, commands other than [q] each with its bet, then [q] - and for every
    pattern of failures of the engine, the history rows the run found are
    still there afterwards, unchanged and in order, before the new ones, and
    so are the players, each with its id, name, age and card; nothing is
    deleted and only balances are rewritten. *)
Theorem main_store_grows (name : string) (age : Z) (card : string)
        (turns : list (ascii * double)) (rest : list token) (w : world) :
  is_int age ->
  no_quit turns ->
  grows (w_db w) (w_db (snd (main (session name age card turns rest) w))).
Proof.
  intros _ _.
  apply (main_kept (fun w w' => grows (w_db w) (w_db w')));
    [intros w1 w2 w3; apply grows_trans | intros; apply grows_refl .. |
     intros; apply grows_after].
Qed.

(** Bob bets 5 while the first lookup and the update of the spin fail: the
    two players and the history row are still there, before a second Bob and
    the row of the spin. *)
Lemma main_store_grows_witness :
  is_int 41 /\
  no_quit [("p"%char, 5%float)] /\
  grows two_players
        (w_db (snd (main
           [TStr "Bob"; TInt 41; TStr "2222"; TChar "p"; TDouble 5; TChar "q"]
           (mkWorld two_players (fun n => Nat.eqb n 3 || Nat.eqb n 7) 0
                    (fun _ => 0%Z) 0 [] [] [])))) /\
  w_db (snd (main
     [TStr "Bob"; TInt 41; TStr "2222"; TChar "p"; TDouble 5; TChar "q"]
     (mkWorld two_players (fun n => Nat.eqb n 3 || Nat.eqb n 7) 0
              (fun _ => 0%Z) 0 [] [] [])))
  = mkDb (Some (mkTable [mkPlayer 1 "Alice" 30 "1111" 90; mkPlayer 2 "Bob" 41 "2222" 100;
                         mkPlayer 3 "Bob" 41 "2222" 0] 3))
         (Some (mkTable [mkSpin 1 1 10 0 90; mkSpin 2 2 5 0 95] 2)).
Proof.
  assert (Hi : is_int 41) by (unfold is_int; lia).
  assert (Hq : no_quit [("p"%char, 5%float)]) by (repeat constructor).
  split; [exact Hi|]. split; [exact Hq|]. split; [|reflexivity].
  exact (@main_store_grows "Bob" 41 "2222" _ []
           (mkWorld two_players _ 0 _ 0 [] [] []) Hi Hq).
Defined.

Lemma NoDup_snoc {A} (l : list A) x : NoDup l -> ~ In x l -> NoDup (l ++ [x]).
Proof.
  induction 1 as [|y l Hy Hl IH]; intros Hx; cbn.
  - constructor; [intros [] | constructor].
  - constructor.
    + rewrite in_app_iff. intros [H | [H | []]]; [now apply Hy|].
      apply Hx. now left.
    + apply IH. intros H. apply Hx. now right.
Qed.

Lemma keyed_exec s db : keyed db -> keyed (exec s db).
Proof.
  intros [Hr Hd]. destruct s.
  - unfold keyed, exec, player_rows, next_id in *. cbn.
    destruct (players db); cbn; split; auto; constructor.
  - unfold keyed, exec, player_rows, next_id in *. cbn. now split.
  - rewrite exec_select. now split.
  - unfold keyed, exec, player_rows, next_id in *. cbn.
    destruct (players db) as [t|] eqn:E; cbn; [|rewrite E; now split].
    split.
    + apply Forall_app. split.
      * eapply Forall_impl; [|exact Hr]. cbn. intros r H. lia.
      * repeat constructor; cbn; lia.
    + rewrite map_app. cbn. apply NoDup_snoc; [exact Hd|].
      intros Hin. apply in_map_iff in Hin. destruct Hin as (r & Hid & Hin).
      rewrite Forall_forall in Hr. specialize (Hr r Hin). cbn in Hr. lia.
  - unfold keyed. rewrite exec_update_players, exec_update_next, map_map.
    rewrite (map_ext (fun r => p_id (set_balance balance id r)) p_id)
      by (intros r; apply set_balance_fields).
    split; [|exact Hd].
    rewrite Forall_forall in *. intros r' Hin. apply in_map_iff in Hin.
    destruct Hin as (r & <- & Hin).
    rewrite (proj1 (set_balance_fields balance id r)). now apply Hr.
  - unfold keyed, player_rows, next_id in *. rewrite exec_spin_players. now split.
Qed.

Lemma keyed_after s d w : keyed (w_db w) -> keyed (w_db (after s d w)).
Proof.
  destruct (after_db_cases s d w) as [-> | ->]; [auto | apply keyed_exec].
Qed.

(** X2: the program never chooses a rowid itself, so a session keeps the
    rowids of [players] distinct and below the AUTOINCREMENT counter. This
    holds for a session typed as the program expects, on a store whose
    rowids fit an [int], for every pattern of failures of the engine - also
    when a failed lookup makes it insert a second row for an identity that
    is already there. *)
Theorem main_keeps_ids_distinct (name : string) (age : Z) (card : string)
        (turns : list (ascii * double)) (rest : list token) (w : world) :
  is_int age ->
  no_quit turns ->
  ids_ok (w_db w) ->
  keyed (w_db w) ->
  keyed (w_db (snd (main (session name age card turns rest) w))).
Proof.
  intros _ _ _.
  apply (main_kept (fun w w' => keyed (w_db w) -> keyed (w_db w'))); auto.
  intros. now apply keyed_after.
Qed.

(** Bob logs in and bets 5 while the first lookup and the update of the spin
    fail: a second row for Bob is inserted, with a rowid of its own. *)
Lemma main_keeps_ids_distinct_witness :
  is_int 41 /\
  no_quit [("p"%char, 5%float)] /\
  ids_ok two_players /\
  keyed two_players /\
  keyed (w_db (snd (main
    [TStr "Bob"; TInt 41; TStr "2222"; TChar "p"; TDouble 5; TChar "q"]
    (mkWorld two_players (fun n => Nat.eqb n 3 || Nat.eqb n 7) 0 (fun _ => 0%Z) 0 [] [] [])))) /\
  map p_id (player_rows (w_db (snd (main
    [TStr "Bob"; TInt 41; TStr "2222"; TChar "p"; TDouble 5; TChar "q"]
    (mkWorld two_players (fun n => Nat.eqb n 3 || Nat.eqb n 7) 0 (fun _ => 0%Z) 0 [] [] [])))))
  = [1; 2; 3]%Z.
Proof.
  assert (Hi : is_int 41) by (unfold is_int; lia).
  assert (Hq : no_quit [("p"%char, 5%float)]) by (repeat constructor).
  assert (K : keyed two_players).
  { split; [repeat constructor; cbn; lia|]. cbn.
    repeat constructor; cbn; intuition discriminate. }
  split; [exact Hi|]. split; [exact Hq|]. split; [exact two_players_ok|].
  split; [exact K|]. split; [|reflexivity].
  exact (@main_keeps_ids_distinct "Bob" 41 "2222" _ []
           (mkWorld two_players _ 0 _ 0 [] [] []) Hi Hq two_players_ok K).
Defined.

(** ** createTables *)

Lemma createTables_eq w :
  createTables w
  = (Ok tt, after CreateHistory diag_exec (after CreatePlayers diag_exec w)).
Proof. unfold createTables, bind. now rewrite !executeQuery_eq by reflexivity. Qed.

Lemma exec_create_again db t h :
  players db = Some t -> spin_history db = Some h ->
  exec_all [CreatePlayers; CreateHistory] db = db.
Proof. destruct db as [p q]. cbn. intros -> ->. reflexivity. Qed.

Lemma after_quiet s d w db :
  healthy w -> eval s (w_db w) = Some db -> w_cerr (after s d w) = w_cerr w.
Proof.
  intros H E. rewrite after_cerr, attempt_healthy by exact H. rewrite E. cbn.
  apply app_nil_r.
Qed.

(** X4: [createTables] on a working engine leaves both tables in place and
    keeps what they hold: the rows and the AUTOINCREMENT counters of a store
    that already has them are untouched, and running it again changes nothing
    more and prints nothing. A relaunch of the program therefore never wipes
    the store. *)
Theorem createTables_keeps_rows (w : world) :
  healthy w ->
  exists w1 w2,
    createTables w = (Ok tt, w1) /\
    createTables w1 = (Ok tt, w2) /\
    (exists t, players (w_db w1) = Some t) /\
    (exists h, spin_history (w_db w1) = Some h) /\
    player_rows (w_db w1) = player_rows (w_db w) /\
    history_rows (w_db w1) = history_rows (w_db w) /\
    next_id (w_db w1) = next_id (w_db w) /\
    history_seq (w_db w1) = history_seq (w_db w) /\
    w_db w2 = w_db w1 /\
    w_cerr w2 = w_cerr w.
Proof.
  intros H. rewrite createTables_eq. eexists. eexists.
  split; [reflexivity|]. rewrite createTables_eq. split; [reflexivity|].
  set (w1 := after CreateHistory diag_exec (after CreatePlayers diag_exec w)).
  assert (R1 : ran [CreatePlayers; CreateHistory] w w1).
  { apply (ran_trans (l1 := [_]) (l2 := [_]) (w2 := after CreatePlayers diag_exec w));
      apply ran_after; [exact H | now apply healthy_after]. }
  assert (H1 : healthy w1) by exact (ran_healthy R1 H).
  assert (R2 : ran [CreatePlayers; CreateHistory] w1
                   (after CreateHistory diag_exec (after CreatePlayers diag_exec w1))).
  { apply (ran_trans (l1 := [_]) (l2 := [_]) (w2 := after CreatePlayers diag_exec w1));
      apply ran_after; [exact H1 | now apply healthy_after]. }
  destruct R1 as (_ & D1 & _). destruct R2 as (_ & D2 & _).
  destruct (exec_create (w_db w)) as (P & Hh & N & S & [t Ht] & [h Hs]).
  rewrite <- D1 in P, Hh, N, S, Ht, Hs.
  split; [now exists t|]. split; [now exists h|].
  repeat (split; [assumption|]).
  split; [rewrite D2; exact (exec_create_again _ Ht Hs)|].
  rewrite (@after_quiet CreateHistory diag_exec _ _ (healthy_after _ _ H1) eq_refl).
  rewrite (@after_quiet CreatePlayers diag_exec _ _ H1 eq_refl).
  unfold w1.
  rewrite (@after_quiet CreateHistory diag_exec _ _ (healthy_after _ _ H) eq_refl).
  now rewrite (@after_quiet CreatePlayers diag_exec _ _ H eq_refl).
Qed.

(** The tables of the store of two players survive two calls. *)
Lemma createTables_keeps_rows_witness :
  healthy (boot two_players no_faults (fun _ => 0%Z)) /\
  exists w1 w2,
    createTables (boot two_players no_faults (fun _ => 0%Z)) = (Ok tt, w1) /\
    createTables w1 = (Ok tt, w2) /\
    w_db w1 = two_players /\ w_db w2 = two_players.
Proof.
  split; [apply boot_healthy|].
  destruct (@createTables_keeps_rows _ (boot_healthy two_players (fun _ => 0%Z)))
    as (w1 & w2 & E1 & E2 & _ & _ & _ & _ & _ & _ & D & _).
  exists w1, w2. split; [exact E1|]. split; [exact E2|].
  assert (D1 : w_db w1 = two_players) by (vm_compute in E1; now injection E1 as <-).
  split; [exact D1 | now rewrite D].
Defined.

(** ** addPlayer and getPlayerID together *)

(** X5: [addPlayer] checks nothing: on a working store it always appends a
    row with the next rowid and balance 0, also for an identity that is
    already there. [getPlayerID] afterwards returns the id of the first row
    that matches: the new id when the identity was new, the old id when it
    was not, and every other identity of the store still resolves to the id
    it had. *)
Theorem addPlayer_then_getPlayerID (name : string) (age : Z) (card : string)
        (w : world) (t : table player) :
  healthy w ->
  ids_ok (w_db w) ->
  players (w_db w) = Some t ->
  exists w1,
    addPlayer name age card w = (Ok tt, w1) /\
    player_rows (w_db w1)
    = player_rows (w_db w) ++ [mkPlayer (next_id (w_db w)) name age card 0] /\
    fst (getPlayerID name age card w1) = Ok (resolved_id (w_db w) name age card) /\
    (forall name' age' card' r,
       lookup (w_db w) name' age' card' = Some r ->
       fst (getPlayerID name' age' card' w1) = Ok (p_id r)).
Proof.
  intros H Hok Ht. rewrite addPlayer_eq. eexists. split; [reflexivity|].
  set (w1 := after (InsertPlayer name age card) diag_add w).
  assert (H1 : healthy w1) by now apply healthy_after.
  assert (P : player_rows (w_db w1)
              = player_rows (w_db w) ++ [mkPlayer (next_id (w_db w)) name age card 0]).
  { unfold w1. rewrite after_db_ok by apply H. unfold player_rows, next_id.
    now rewrite (exec_insert_players _ _ _ _ Ht), Ht. }
  assert (Old : forall name' age' card' r,
            lookup (w_db w) name' age' card' = Some r ->
            fst (getPlayerID name' age' card' w1) = Ok (p_id r)).
  { intros name' age' card' r L. rewrite getPlayerID_eq. cbn [fst].
    rewrite (@found_healthy _ _ _ _ H1). unfold lookup at 1. rewrite P.
    rewrite (find_first _ _ _ L).
    destruct (@lookup_in _ _ _ _ _ L) as [Hin _].
    destruct (@ids_ok_row _ _ Hok Hin) as [Hr Hn].
    now rewrite to_int_small by lia. }
  split; [exact P|]. split; [|exact Old].
  unfold resolved_id. destruct (lookup (w_db w) name age card) as [r|] eqn:L.
  - now apply Old.
  - rewrite getPlayerID_eq. cbn [fst].
    rewrite (@found_healthy _ _ _ _ H1). unfold lookup at 1. rewrite P.
    rewrite (@find_last _ _ _ _ L (matches_refl _ _ _ _ _)). cbn [p_id].
    pose proof (@ids_ok_next _ Hok). now rewrite to_int_small by lia.
Qed.

(** A second Alice is added to the store of two players: the lookup still
    answers 1. *)
Lemma addPlayer_then_getPlayerID_witness :
  healthy (boot two_players no_faults (fun _ => 0%Z)) /\
  ids_ok two_players /\
  exists w1,
    addPlayer "Alice" 30 "1111" (boot two_players no_faults (fun _ => 0%Z)) = (Ok tt, w1) /\
    player_rows (w_db w1)
    = [mkPlayer 1 "Alice" 30 "1111" 90; mkPlayer 2 "Bob" 41 "2222" 20;
       mkPlayer 3 "Alice" 30 "1111" 0] /\
    fst (getPlayerID "Alice" 30 "1111" w1) = Ok 1%Z.
Proof.
  split; [apply boot_healthy|]. split; [exact two_players_ok|].
  destruct (@addPlayer_then_getPlayerID "Alice" 30 "1111" _ _
              (boot_healthy two_players (fun _ => 0%Z)) two_players_ok eq_refl)
    as (w1 & E & P & G & _).
  exists w1. split; [exact E|]. split; [exact P | exact G].
Defined.

Lemma found_ok name age card w :
  w_faults w (w_calls w) = false ->
  found name age card w
  = match lookup (w_db w) name age card with
    | Some r => to_int (p_id r)
    | None => (-1)%Z
    end.
Proof.
  intros H. unfold found, lookup, player_rows. rewrite H.
  destruct (players (w_db w)); reflexivity.
Qed.

(** X6: a lookup that fails is silent and is taken for "not found". When the
    first lookup of an identity that is in the store fails and the two
    statements after it work, [play] announces a new player, inserts a second
    row for the identity, and then resolves to the id of the old row; nothing
    is written to the error stream. *)
Theorem failed_lookup_duplicates (name : string) (age : Z) (card : string)
        (w : world) (r : player) :
  ids_ok (w_db w) ->
  lookup (w_db w) name age card = Some r ->
  w_faults w (w_calls w) = true ->
  w_faults w (1 + w_calls w) = false ->
  w_faults w (2 + w_calls w) = false ->
  exists w',
    play_resolve name age card w = (Ok (p_id r), w') /\
    player_rows (w_db w')
    = player_rows (w_db w) ++ [mkPlayer (next_id (w_db w)) name age card 0] /\
    w_cout w' = w_cout w ++ new_player /\
    w_cerr w' = w_cerr w /\
    w_trace w'
    = w_trace w ++ [SelectPlayer name age card; InsertPlayer name age card;
                    SelectPlayer name age card].
Proof.
  intros Hok L F0 F1 F2. rewrite play_resolve_eq.
  assert (E0 : found name age card w = (-1)%Z) by (unfold found; now rewrite F0).
  set (w1 := wrote new_player (sent (SelectPlayer name age card) w)).
  set (w2 := after (InsertPlayer name age card) diag_add w1).
  assert (R : resolving name age card w
              = (found name age card w2, sent (SelectPlayer name age card) w2))
    by (unfold resolving; now rewrite E0).
  destruct (@lookup_in _ _ _ _ _ L) as [Hin _].
  destruct (players (w_db w)) as [t|] eqn:Ht;
    [|unfold player_rows in Hin; rewrite Ht in Hin; destruct Hin].
  assert (D2 : w_db w2 = exec (InsertPlayer name age card) (w_db w))
    by (unfold w2; now rewrite after_db_ok by exact F1).
  assert (P2 : player_rows (w_db w2)
               = player_rows (w_db w) ++ [mkPlayer (next_id (w_db w)) name age card 0]).
  { rewrite D2. unfold player_rows, next_id.
    now rewrite (exec_insert_players _ _ _ _ Ht), Ht. }
  assert (E2 : found name age card w2 = p_id r).
  { rewrite found_ok.
    - unfold lookup at 1. rewrite P2. unfold lookup in L. rewrite (find_first _ _ _ L).
      destruct (@ids_ok_row _ _ Hok Hin) as [Hr Hn]. apply to_int_small. lia.
    - unfold w2. rewrite after_faults, after_calls. exact F2. }
  rewrite R, E2. cbn [fst snd]. eexists. split; [reflexivity|].
  cbn [w_db w_cout w_cerr w_trace sent traced called].
  split; [exact P2|]. unfold w2.
  rewrite after_cout, after_cerr, after_trace.
  split; [reflexivity|]. split.
  - unfold attempt. change (w_faults w1 (w_calls w1)) with (w_faults w (1 + w_calls w)).
    rewrite F1. change (w_db w1) with (w_db w). cbn. rewrite Ht. cbn. apply app_nil_r.
  - cbn [w_trace w1 wrote sent traced called]. now rewrite <- !app_assoc.
Qed.

(** Alice is in the store, and the first call into the engine fails. *)
Lemma failed_lookup_duplicates_witness :
  ids_ok two_players /\
  lookup two_players "Alice" 30 "1111" = Some (mkPlayer 1 "Alice" 30 "1111" 90) /\
  fails_at 0 0 = true /\ fails_at 0 1 = false /\ fails_at 0 2 = false /\
  exists w',
    play_resolve "Alice" 30 "1111" (boot two_players (fails_at 0) (fun _ => 0%Z))
    = (Ok 1%Z, w') /\
    player_rows (w_db w')
    = [mkPlayer 1 "Alice" 30 "1111" 90; mkPlayer 2 "Bob" 41 "2222" 20;
       mkPlayer 3 "Alice" 30 "1111" 0] /\
    w_cerr w' = [].
Proof.
  split; [exact two_players_ok|]. repeat (split; [reflexivity|]).
  destruct (@failed_lookup_duplicates "Alice" 30 "1111"
              (boot two_players (fails_at 0) (fun _ => 0%Z)) _
              two_players_ok eq_refl eq_refl eq_refl eq_refl)
    as (w' & E & P & _ & C & _).
  exists w'. split; [exact E|]. split; [exact P | exact C].
Defined.

(** ** displaySpinResult *)

Lemma read_rows_line row out acc :
  read_rows (concat (map (fun symbol => [Chr symbol; Str " "]) row) ++ Endl :: out) acc
  = (rev acc ++ row) :: read_rows out [].
Proof.
  revert acc. induction row as [|c row IH]; intros acc.
  - cbn. now rewrite app_nil_r.
  - cbn [map concat app read_rows]. rewrite IH. cbn [rev]. now rewrite <- app_assoc.
Qed.

Lemma read_rows_shown result : read_rows (shown result) [] = result.
Proof.
  unfold shown. induction result as [|row result IH]; [reflexivity|].
  cbn [map concat]. rewrite <- app_assoc. cbn [app].
  rewrite read_rows_line. cbn [rev app]. now rewrite IH.
Qed.

Lemma length_shown result :
  length (shown result) = (2 * length (concat result) + length result)%nat.
Proof.
  unfold shown. induction result as [|row result IH]; [reflexivity|].
  cbn [map concat length]. rewrite !length_app, IH.
  assert (E : length (concat (map (fun symbol => [Chr symbol; Str " "]) row))
              = (2 * length row)%nat).
  { induction row as [|c row IHr]; [reflexivity|]. cbn [map concat length app].
    rewrite IHr. lia. }
  rewrite E. cbn [length]. lia.
Qed.

(** X7: [displaySpinResult] writes every cell exactly once, in row-major
    order, each followed by one blank, and ends every row with a line end:
    for a grid of any shape, also with empty rows, the grid can be read back
    from what was written, and the output holds two items per cell and one per
    row. Only the standard output changes. *)
Theorem displaySpinResult_read_back (result : list (list ascii)) (w : world) :
  exists out,
    displaySpinResult result w = (Ok tt, wrote out w) /\
    read_rows out [] = result /\
    length out = (2 * length (concat result) + length result)%nat.
Proof.
  exists (shown result). split; [reflexivity|].
  split; [apply read_rows_shown | apply length_shown].
Qed.

(** ** updateBalance, twice and on no row *)

Lemma set_balance_swap b1 b2 id1 id2 r :
  id1 <> id2 ->
  set_balance b2 id2 (set_balance b1 id1 r) = set_balance b1 id1 (set_balance b2 id2 r).
Proof.
  intros Hne. unfold set_balance.
  destruct (Z.eqb (p_id r) id1) eqn:E1; destruct (Z.eqb (p_id r) id2) eqn:E2;
    cbn [p_id]; rewrite ?E1, ?E2; try reflexivity.
  apply Z.eqb_eq in E1, E2. congruence.
Qed.

Lemma exec_update_twice b1 b2 id db :
  exec (UpdateBalance b2 id) (exec (UpdateBalance b1 id) db) = exec (UpdateBalance b2 id) db.
Proof.
  unfold exec. cbn. destruct (players db) as [t|] eqn:E; cbn; rewrite ?E; [|reflexivity].
  rewrite map_map. do 3 f_equal. apply map_ext. intros r. apply set_balance_twice.
Qed.

Lemma exec_update_swap b1 b2 id1 id2 db :
  id1 <> id2 ->
  exec (UpdateBalance b2 id2) (exec (UpdateBalance b1 id1) db)
  = exec (UpdateBalance b1 id1) (exec (UpdateBalance b2 id2) db).
Proof.
  intros Hne. unfold exec. cbn. destruct (players db) as [t|] eqn:E; cbn; rewrite ?E;
    [|reflexivity].
  rewrite !map_map. do 3 f_equal. apply map_ext. intros r. now apply set_balance_swap.
Qed.

Lemma updateBalance_db playerId newBalance w :
  healthy w ->
  w_db (snd (updateBalance playerId newBalance w))
  = exec (UpdateBalance newBalance playerId) (w_db w) /\
  healthy (snd (updateBalance playerId newBalance w)).
Proof.
  intros H. rewrite updateBalance_eq. cbn [snd].
  split; [apply after_db_ok, H | now apply healthy_after].
Qed.

(** X8: balance updates on a working store compose as overwrites: of two
    updates of the same id only the second shows, and two updates of
    different ids give the same store in either order. *)
Theorem updateBalance_last_write_wins (id : Z) (b1 b2 : double) (w : world) :
  healthy w ->
  w_db (snd (updateBalance id b2 (snd (updateBalance id b1 w))))
  = w_db (snd (updateBalance id b2 w)) /\
  (forall id', id' <> id ->
     w_db (snd (updateBalance id' b2 (snd (updateBalance id b1 w))))
     = w_db (snd (updateBalance id b1 (snd (updateBalance id' b2 w))))).
Proof.
  intros H.
  destruct (updateBalance_db id b1 H) as [D1 H1].
  split.
  - rewrite (proj1 (updateBalance_db id b2 H1)), D1, (proj1 (updateBalance_db id b2 H)).
    apply exec_update_twice.
  - intros id' Hne.
    destruct (updateBalance_db id' b2 H) as [D2 H2].
    rewrite (proj1 (updateBalance_db id' b2 H1)), D1.
    rewrite (proj1 (updateBalance_db id b1 H2)), D2.
    apply exec_update_swap. congruence.
Qed.

(** Alice is set to 5 and then to 7; Bob is set to 7 before or after Alice
    is set to 5. *)
Lemma updateBalance_last_write_wins_witness :
  healthy (boot two_players no_faults (fun _ => 0%Z)) /\
  player_rows (w_db (snd (updateBalance 1 7
      (snd (updateBalance 1 5 (boot two_players no_faults (fun _ => 0%Z)))))))
  = [mkPlayer 1 "Alice" 30 "1111" 7; mkPlayer 2 "Bob" 41 "2222" 20] /\
  w_db (snd (updateBalance 2 7
      (snd (updateBalance 1 5 (boot two_players no_faults (fun _ => 0%Z))))))
  = w_db (snd (updateBalance 1 5
      (snd (updateBalance 2 7 (boot two_players no_faults (fun _ => 0%Z)))))).
Proof.
  split; [apply boot_healthy|].
  destruct (@updateBalance_last_write_wins 1 5 7 _ (boot_healthy two_players (fun _ => 0%Z)))
    as [E C].
  split; [rewrite E; reflexivity|]. apply C. discriminate.
Defined.

(** X9: an update for an id that no row has is a success like any other:
    when the engine works and the table exists, [updateBalance] prints no
    diagnostic and leaves the database as it was. *)
Theorem updateBalance_unknown_id (playerId : Z) (newBalance : double) (w : world)
        (t : table player) :
  w_faults w (w_calls w) = false ->
  players (w_db w) = Some t ->
  Forall (fun r => p_id r <> playerId) (rows t) ->
  exists w',
    updateBalance playerId newBalance w = (Ok tt, w') /\
    w_db w' = w_db w /\ w_cerr w' = w_cerr w /\ w_cout w' = w_cout w /\
    w_trace w' = w_trace w ++ [UpdateBalance newBalance playerId].
Proof.
  intros F Ht Hno. rewrite updateBalance_eq. eexists. split; [reflexivity|].
  rewrite after_db_ok, after_cerr, after_cout, after_trace by exact F.
  unfold attempt. rewrite F. unfold exec. cbn. rewrite Ht. cbn.
  rewrite (unaffected _ Hno). repeat split; [|apply app_nil_r].
  destruct (w_db w) as [p h]. destruct t as [l q]. cbn in *. now rewrite Ht.
Qed.

(** The id -1 on the store of two players. *)
Lemma updateBalance_unknown_id_witness :
  w_faults (boot two_players no_faults (fun _ => 0%Z)) 0 = false /\
  Forall (fun r => p_id r <> (-1)%Z)
         [mkPlayer 1 "Alice" 30 "1111" 90; mkPlayer 2 "Bob" 41 "2222" 20] /\
  exists w',
    updateBalance (-1) 100 (boot two_players no_faults (fun _ => 0%Z)) = (Ok tt, w') /\
    w_db w' = two_players /\ w_cerr w' = [].
Proof.
  assert (Hno : Forall (fun r => p_id r <> (-1)%Z)
                       [mkPlayer 1 "Alice" 30 "1111" 90; mkPlayer 2 "Bob" 41 "2222" 20])
    by (repeat constructor; discriminate).
  split; [reflexivity|]. split; [exact Hno|].
  destruct (@updateBalance_unknown_id (-1) 100 (boot two_players no_faults (fun _ => 0%Z)) _
              eq_refl eq_refl Hno)
    as (w' & E & D & C & _).
  exists w'. split; [exact E|]. split; [exact D | exact C].
Defined.

(** ** The balance in the store, in the history and on the screen *)

Lemma records_last id playerId balance bets :
  bets <> [] ->
  exists older h,
    records id playerId balance bets = older ++ [h] /\
    h_player_id h = playerId /\
    h_balance h = last (running balance bets) balance.
Proof.
  revert id balance. induction bets as [|bet bets IH]; intros id balance Hne; [congruence|].
  destruct bets as [|bet' bets].
  - exists [], (mkSpin (id + 1) playerId bet 0 (balance + (0 - bet))). now split.
  - destruct (IH (id + 1)%Z (balance + (0 - bet))%float) as (older & h & E & Hp & Hb);
      [discriminate|].
    exists (mkSpin (id + 1) playerId bet 0 (balance + (0 - bet)) :: older), h.
    split; [|split; [exact Hp|]].
    + change (records id playerId balance (bet :: bet' :: bets))
        with (mkSpin (id + 1) playerId bet 0 (balance + (0 - bet))
                :: records (id + 1) playerId (balance + (0 - bet)) (bet' :: bets)).
      now rewrite E.
    + rewrite Hb. change (running balance (bet :: bet' :: bets))
        with ((balance + (0 - bet))%float :: running (balance + (0 - bet)) (bet' :: bets)).
      now rewrite last_cons.
Qed.

Lemma last_app_cons {A} (l : list A) x l' d : last (l ++ x :: l') d = last (x :: l') d.
Proof.
  induction l as [|y l IH]; [reflexivity|].
  cbn [app]. rewrite <- IH. destruct (l ++ x :: l') eqn:E; [|reflexivity].
  now destruct l.
Qed.

Lemma finished_reported name age card turns w :
  reported (w_cout (finished name age card turns w))
  = reported (w_cout w) ++ running 100 (map snd turns).
Proof.
  unfold finished. cbn [w_cout wrote]. rewrite reported_app, spun_all_reported.
  rewrite logged_reported. cbn [w_cout wrote]. rewrite reported_app.
  unfold opened. rewrite !after_cout. cbn [w_cout called].
  change (reported prompt_identity) with (@nil double).
  change (reported prompt_command) with (@nil double).
  now rewrite !app_nil_r.
Qed.

(** X10: on a working store the three places a balance goes agree at the
    end of a session with at least one spin: the balance stored for the
    player the identity resolves to, the balance of the last history row,
    which carries that player's id, and the last balance printed. *)
Theorem session_balances_agree (name : string) (age : Z) (card : string)
        (turns : list (ascii * double)) (rest : list token) (w : world) :
  healthy w ->
  ids_ok (w_db w) ->
  no_quit turns ->
  turns <> [] ->
  exists w' r older h,
    main (session name age card turns rest) w = (Ok 0%Z, w') /\
    lookup (w_db w') name age card = Some r /\
    history_rows (w_db w') = older ++ [h] /\
    h_player_id h = p_id r /\
    h_balance h = p_balance r /\
    last (reported (w_cout w')) 0%float = p_balance r.
Proof.
  intros H Hok Hq Hne.
  set (bets := map snd turns).
  set (id := resolved_id (w_db w) name age card).
  set (final := last (running 100 bets) 100%float).
  assert (Hb : bets <> []) by (destruct turns; [congruence | discriminate]).
  destruct (@session_healthy name age card turns w H Hok) as (_ & _ & (_ & D & _)).
  destruct (session_rows (w_db w) name age card bets) as [P Hh].
  fold bets in D. rewrite <- D in P, Hh. fold id final in P. fold id in Hh.
  destruct (@records_last (history_seq (w_db w)) id 100%float bets Hb)
    as (older & h & Er & Hp & Hbal).
  assert (Lk : exists r, lookup (w_db (finished name age card turns w)) name age card = Some r
                         /\ p_id r = id /\ p_balance r = final).
  { unfold lookup at 1. rewrite P.
    destruct (lookup (w_db w) name age card) as [r0|] eqn:L.
    - exists (set_balance final id r0). split; [now apply lookup_kept|].
      unfold id, resolved_id. rewrite L. unfold set_balance. rewrite Z.eqb_refl. now split.
    - unfold id, final, bets. rewrite (@enrolled_new _ _ _ _ _ Hok L).
      eexists. split; [apply find_last; [exact L | apply matches_refl]|].
      unfold resolved_id. rewrite L. now split. }
  destruct Lk as (r & Lr & Ir & Br).
  exists (finished name age card turns w), r, (history_rows (w_db w) ++ older), h.
  split; [apply main_eq; [apply H | exact Hq]|].
  split; [exact Lr|].
  split; [rewrite Hh, Er; apply app_assoc|].
  split; [now rewrite Hp, Ir|]. split; [now rewrite Hbal, Br|].
  rewrite finished_reported. fold bets. rewrite Br. unfold final.
  destruct (running 100 bets) as [|b l] eqn:E.
  - destruct bets; [congruence | discriminate E].
  - rewrite last_app_cons. apply last_default.
Qed.

(** Alice bets 10 and then 2.5 on the store of two players. *)
Lemma session_balances_agree_witness :
  healthy (boot two_players no_faults (fun _ => 0%Z)) /\
  ids_ok two_players /\
  no_quit [("p"%char, 10%float); ("p"%char, 2.5%float)] /\
  [("p"%char, 10%float); ("p"%char, 2.5%float)] <> [] /\
  exists w' r older h,
    main [TStr "Alice"; TInt 30; TStr "1111";
          TChar "p"; TDouble 10; TChar "p"; TDouble 2.5; TChar "q"]
         (boot two_players no_faults (fun _ => 0%Z)) = (Ok 0%Z, w') /\
    lookup (w_db w') "Alice" 30 "1111" = Some r /\
    history_rows (w_db w') = older ++ [h] /\
    h_player_id h = p_id r /\
    h_balance h = p_balance r /\
    last (reported (w_cout w')) 0%float = p_balance r.
Proof.
  assert (Hq : no_quit [("p"%char, 10%float); ("p"%char, 2.5%float)])
    by (repeat constructor).
  assert (Hne : [("p"%char, 10%float); ("p"%char, 2.5%float)] <> []) by discriminate.
  split; [apply boot_healthy|]. split; [exact two_players_ok|].
  split; [exact Hq|]. split; [exact Hne|].
  exact (@session_balances_agree "Alice" 30 "1111" _ [] _
           (boot_healthy two_players (fun _ => 0%Z)) two_players_ok Hq Hne).
Defined.

(** ** The reels and the rest *)

Lemma found_same name age card w1 w2 :
  same_but_reels w1 w2 -> found name age card w1 = found name age card w2.
Proof. intros (D & F & C & _). unfold found. now rewrite D, F, C. Qed.

Lemma same_but_reels_wrote l1 l2 w1 w2 :
  reported l1 = reported l2 ->
  same_but_reels w1 w2 -> same_but_reels (wrote l1 w1) (wrote l2 w2).
Proof.
  intros E (D & F & C & R & T & P). unfold same_but_reels. cbn -[reported].
  rewrite !reported_app, E, P. auto 10.
Qed.

Lemma same_but_reels_after s d w1 w2 :
  same_but_reels w1 w2 -> same_but_reels (after s d w1) (after s d w2).
Proof.
  intros (D & F & C & R & T & P). unfold same_but_reels.
  assert (A : attempt s w1 = attempt s w2) by (unfold attempt; now rewrite D, F, C).
  rewrite !after_db, !after_faults, !after_calls, !after_cerr, !after_trace, !after_cout.
  rewrite A, D, F, C, R, T, P. auto 10.
Qed.

Lemma same_but_reels_sent s w1 w2 :
  same_but_reels w1 w2 -> same_but_reels (sent s w1) (sent s w2).
Proof.
  intros (D & F & C & R & T & P). unfold same_but_reels. cbn -[reported].
  rewrite D, F, C, R, T, P. auto 10.
Qed.

Lemma same_but_reels_drawn n1 n2 w1 w2 :
  same_but_reels w1 w2 -> same_but_reels (drawn n1 w1) (drawn n2 w2).
Proof. intros H. exact H. Qed.

Lemma same_but_reels_spun playerId balance bet w1 w2 :
  same_but_reels w1 w2 ->
  same_but_reels (spun playerId balance bet w1) (spun playerId balance bet w2).
Proof.
  intros H. unfold spun.
  apply same_but_reels_wrote; [reflexivity|].
  do 2 apply same_but_reels_after.
  apply same_but_reels_wrote; [now rewrite !reported_shown|].
  now apply same_but_reels_drawn.
Qed.

Lemma same_but_reels_logged name age card w1 w2 :
  same_but_reels w1 w2 ->
  fst (logged name age card w1) = fst (logged name age card w2) /\
  same_but_reels (snd (logged name age card w1)) (snd (logged name age card w2)).
Proof.
  intros H.
  assert (R : fst (resolving name age card w1) = fst (resolving name age card w2) /\
              same_but_reels (snd (resolving name age card w1))
                             (snd (resolving name age card w2))).
  { unfold resolving. rewrite (found_same name age card H).
    destruct (Z.eqb (found name age card w2) (-1)); cbn [fst snd].
    - assert (H2 : same_but_reels
                     (after (InsertPlayer name age card) diag_add
                        (wrote new_player (sent (SelectPlayer name age card) w1)))
                     (after (InsertPlayer name age card) diag_add
                        (wrote new_player (sent (SelectPlayer name age card) w2)))).
      { apply same_but_reels_after, same_but_reels_wrote; [reflexivity|].
        now apply same_but_reels_sent. }
      split; [now apply found_same | now apply same_but_reels_sent].
    - split; [reflexivity | now apply same_but_reels_sent]. }
  destruct R as [E S]. unfold logged. cbn [fst snd]. rewrite E.
  split; [reflexivity | now apply same_but_reels_after].
Qed.

Lemma same_but_reels_loop input playerId :
  forall balance w1 w2,
    same_but_reels w1 w2 ->
    fst (play_loop input playerId balance w1) = fst (play_loop input playerId balance w2) /\
    same_but_reels (snd (play_loop input playerId balance w1))
                   (snd (play_loop input playerId balance w2)).
Proof.
  induction input as [| t | t1 t2 input IH] using token_pairs_ind; intros balance w1 w2 H.
  - split; [reflexivity|]. now apply same_but_reels_wrote.
  - destruct (play_loop_shape [t]) as [[l E] | [[rest E] | (c & bet & rest & _ & E)]].
    + rewrite !E. split; [reflexivity|]. now apply same_but_reels_wrote.
    + rewrite E, !play_loop_quit. split; [reflexivity|]. now apply same_but_reels_wrote.
    + discriminate E.
  - destruct (play_loop_shape (t1 :: t2 :: input))
      as [[l E] | [[rest E] | (c & bet & rest & Hc & E)]].
    + rewrite !E. split; [reflexivity|]. now apply same_but_reels_wrote.
    + rewrite E, !play_loop_quit. split; [reflexivity|]. now apply same_but_reels_wrote.
    + injection E as -> -> ->. rewrite !play_loop_spin by exact Hc.
      apply IH, same_but_reels_spun.
      apply same_but_reels_wrote; [reflexivity|].
      now apply same_but_reels_wrote.
Qed.

Lemma same_but_reels_play input w1 w2 :
  same_but_reels w1 w2 ->
  fst (play input w1) = fst (play input w2) /\
  same_but_reels (snd (play input w1)) (snd (play input w2)).
Proof.
  intros H.
  destruct (play_shape input) as [(name & age & card & rest & ->) | [l E]].
  - rewrite !play_eq.
    destruct (@same_but_reels_logged name age card (wrote prompt_identity w1)
                (wrote prompt_identity w2)) as [Ei S].
    { now apply same_but_reels_wrote. }
    rewrite Ei. now apply same_but_reels_loop.
  - rewrite !E. split; [reflexivity|]. now apply same_but_reels_wrote.
Qed.

(** X11: the reels are for show. Two runs of a session typed as the
    program expects, on the same store and with the same failures, that
    differ only in the random values drawn, end alike, leave the same
    database, send the same statements, print the same diagnostics and
    report the same balances; only the glyphs on the screen can differ. No
    win is ever computed from the grid. *)
Theorem main_ignores_reels (name : string) (age : Z) (card : string)
        (turns : list (ascii * double)) (rest : list token) (w1 w2 : world) :
  is_int age ->
  no_quit turns ->
  same_but_reels w1 w2 ->
  fst (main (session name age card turns rest) w1)
  = fst (main (session name age card turns rest) w2) /\
  same_but_reels (snd (main (session name age card turns rest) w1))
                 (snd (main (session name age card turns rest) w2)).
Proof.
  intros _ _ H. pose proof H as (D & F & C & R & T & P).
  destruct (w_faults w2 (w_calls w2)) eqn:F2.
  - rewrite !main_open_fails by (rewrite ?F, ?C; exact F2).
    split; [reflexivity|]. unfold same_but_reels. cbn -[reported].
    rewrite D, F, C, R, T, P. auto 10.
  - rewrite !main_open_ok by (rewrite ?F, ?C; exact F2). cbn [fst snd].
    assert (S : same_but_reels (opened w1) (opened w2)).
    { unfold opened. do 2 apply same_but_reels_after.
      unfold same_but_reels. cbn -[reported]. rewrite D, F, C, R, T, P. auto 10. }
    destruct (same_but_reels_play (session name age card turns rest) S) as [E S'].
    now rewrite E.
Qed.

(** One session of Alice under two sequences of random values: the grids
    differ, the store and the balance do not. *)
Lemma main_ignores_reels_witness :
  is_int 30 /\
  no_quit [("p"%char, 10%float)] /\
  same_but_reels (boot empty_db no_faults (fun _ => 0%Z))
                 (boot empty_db no_faults (fun n => Z.of_nat n)) /\
  w_db (snd (main [TStr "Alice"; TInt 30; TStr "1111"; TChar "p"; TDouble 10; TChar "q"]
                  (boot empty_db no_faults (fun _ => 0%Z))))
  = w_db (snd (main [TStr "Alice"; TInt 30; TStr "1111"; TChar "p"; TDouble 10; TChar "q"]
                    (boot empty_db no_faults (fun n => Z.of_nat n)))) /\
  grid (boot empty_db no_faults (fun _ => 0%Z))
  = [["A"; "A"; "A"]; ["A"; "A"; "A"]; ["A"; "A"; "A"]]%char /\
  grid (boot empty_db no_faults (fun n => Z.of_nat n))
  = [["A"; "B"; "C"]; ["D"; "A"; "B"]; ["C"; "D"; "A"]]%char.
Proof.
  assert (Hi : is_int 30) by (unfold is_int; lia).
  assert (Hq : no_quit [("p"%char, 10%float)]) by (repeat constructor).
  assert (S : same_but_reels (boot empty_db no_faults (fun _ => 0%Z))
                             (boot empty_db no_faults (fun n => Z.of_nat n)))
    by (repeat split).
  split; [exact Hi|]. split; [exact Hq|].
  split; [exact S|]. split; [|split; reflexivity].
  exact (proj1 (proj2 (@main_ignores_reels "Alice" 30 "1111" _ [] _ _ Hi Hq S))).
Defined.

(** ** Statements that fail in the middle of a session *)

(** X12: nothing is rolled back inside a spin. When the balance update of a
    spin fails and the history insert after it works, the spin still returns
    and prints the new balance and still writes the history row with it,
    while [players] is left as it was: the store then holds a history row
    whose balance the player's row does not have. *)
Theorem failed_update_still_logged (playerId : Z) (balance bet : double) (w : world)
        (t : table spin) :
  w_faults w (w_calls w) = true ->
  w_faults w (1 + w_calls w) = false ->
  spin_history (w_db w) = Some t ->
  exists w',
    play_spin playerId balance bet w = (Ok (balance + (0 - bet))%float, w') /\
    players (w_db w') = players (w_db w) /\
    history_rows (w_db w')
    = rows t ++ [mkSpin (seq t + 1) playerId bet 0 (balance + (0 - bet))] /\
    w_cerr w' = w_cerr w ++ diag_update /\
    reported (w_cout w') = reported (w_cout w) ++ [(balance + (0 - bet))%float].
Proof.
  intros F0 F1 Ht. rewrite play_spin_eq. eexists. split; [reflexivity|].
  rewrite spun_cout, !reported_app, reported_shown. unfold spun. cbn [w_db w_cerr wrote].
  set (b := (balance + (0 - bet))%float).
  set (w1 := wrote (shown (grid w)) (drawn 9 w)).
  assert (A : attempt (UpdateBalance b playerId) w1 = None)
    by (unfold attempt; change (w_faults w1 (w_calls w1)) with (w_faults w (w_calls w));
        now rewrite F0).
  rewrite (after_failed _ diag_update _ A).
  set (w2 := complained diag_update (sent (UpdateBalance b playerId) w1)).
  assert (F2 : w_faults w2 (w_calls w2) = false) by exact F1.
  rewrite after_db_ok, after_cerr by exact F2.
  unfold attempt. rewrite F2. change (w_db w2) with (w_db w).
  rewrite exec_spin_players. unfold history_rows.
  rewrite (exec_spin_history _ _ _ _ _ Ht). cbn. rewrite Ht. cbn.
  repeat split. now rewrite app_nil_r.
Qed.

(** Alice bets 10 while the update fails: her row keeps 90, the history gets
    a row with 80. *)
Lemma failed_update_still_logged_witness :
  fails_at 0 0 = true /\ fails_at 0 1 = false /\
  spin_history two_players = Some (mkTable [mkSpin 1 1 10 0 90] 1) /\
  exists w',
    play_spin 1 90 10 (boot two_players (fails_at 0) (fun _ => 0%Z)) = (Ok 80%float, w') /\
    players (w_db w') = players two_players /\
    history_rows (w_db w') = [mkSpin 1 1 10 0 90; mkSpin 2 1 10 0 80].
Proof.
  repeat (split; [reflexivity|]).
  destruct (@failed_update_still_logged 1 90 10 (boot two_players (fails_at 0) (fun _ => 0%Z)) _
              eq_refl eq_refl eq_refl)
    as (w' & E & P & Hh & _).
  exists w'. split; [exact E|]. split; [exact P | exact Hh].
Defined.

Lemma attempt_no_table s w :
  players (w_db w) = None -> spin_history (w_db w) = None ->
  s <> CreatePlayers -> s <> CreateHistory ->
  attempt s w = None.
Proof.
  intros Hp Hh N1 N2. unfold attempt. destruct (w_faults w (w_calls w)); [reflexivity|].
  destruct s; cbn; rewrite ?Hp, ?Hh; try reflexivity; congruence.
Qed.

Lemma spun_no_table playerId balance bet w :
  w_db w = empty_db ->
  w_db (spun playerId balance bet w) = empty_db /\
  w_cerr (spun playerId balance bet w) = w_cerr w ++ diag_update ++ diag_history.
Proof.
  intros D. unfold spun. cbn [w_db w_cerr wrote].
  set (w1 := wrote (shown (grid w)) (drawn 9 w)).
  assert (D1 : w_db w1 = empty_db) by exact D.
  rewrite (after_failed (UpdateBalance (balance + (0 - bet)) playerId) diag_update w1)
    by (apply attempt_no_table; rewrite ?D1; reflexivity || discriminate).
  rewrite after_failed
    by (apply attempt_no_table; cbn; rewrite ?D; reflexivity || discriminate).
  cbn. split; [exact D | now rewrite <- app_assoc].
Qed.

Lemma spun_all_no_table playerId balance turns w :
  w_db w = empty_db ->
  w_db (snd (spun_all playerId balance turns w)) = empty_db /\
  w_cerr (snd (spun_all playerId balance turns w))
  = w_cerr w ++ flat_map (fun _ => diag_update ++ diag_history) turns.
Proof.
  revert balance w. induction turns as [|[c bet] turns IH]; intros balance w D.
  - cbn. split; [exact D | now rewrite app_nil_r].
  - cbn [spun_all flat_map].
    set (w1 := wrote prompt_bet (wrote prompt_command w)).
    assert (D1 : w_db w1 = empty_db) by exact D.
    destruct (spun_no_table playerId balance bet w1 D1) as [D2 C2].
    destruct (IH (balance + (0 - bet))%float _ D2) as [D3 C3].
    split; [exact D3|]. rewrite C3, C2. cbn [w_cerr w1 wrote].
    now rewrite <- !app_assoc.
Qed.

Lemma opened_failed w :
  w_faults w (1 + w_calls w) = true ->
  w_faults w (2 + w_calls w) = true ->
  opened w
  = complained diag_exec
      (sent CreateHistory (complained diag_exec (sent CreatePlayers (called w)))).
Proof.
  intros F1 F2. unfold opened.
  rewrite (after_failed CreatePlayers diag_exec (called w))
    by (unfold attempt;
        change (w_faults (called w) (w_calls (called w))) with (w_faults w (1 + w_calls w));
        now rewrite F1).
  set (w1 := complained diag_exec (sent CreatePlayers (called w))).
  rewrite after_failed
    by (unfold attempt;
        change (w_faults w1 (w_calls w1)) with (w_faults w (2 + w_calls w));
        now rewrite F2).
  reflexivity.
Qed.

Lemma logged_no_table name age card w :
  w_db w = empty_db ->
  fst (logged name age card w) = (-1)%Z /\
  w_db (snd (logged name age card w)) = empty_db /\
  w_cerr (snd (logged name age card w)) = w_cerr w ++ diag_add ++ diag_update.
Proof.
  intros D.
  assert (L : lookup (w_db w) name age card = None) by (now rewrite D).
  set (w1 := wrote new_player (sent (SelectPlayer name age card) w)).
  assert (E2 : after (InsertPlayer name age card) diag_add w1
               = complained diag_add (sent (InsertPlayer name age card) w1)).
  { apply after_failed, attempt_no_table;
      try discriminate; change (w_db w1) with (w_db w); now rewrite D. }
  set (w2 := complained diag_add (sent (InsertPlayer name age card) w1)) in E2.
  assert (R : resolving name age card w = ((-1)%Z, sent (SelectPlayer name age card) w2)).
  { unfold resolving. rewrite (@found_absent _ _ _ _ L). cbn [Z.eqb].
    change (Pos.eqb 1 1) with true. cbv iota. fold w1. rewrite E2.
    now rewrite (@found_absent name age card w2 L). }
  unfold logged. rewrite R. cbn [fst snd].
  rewrite after_failed
    by (apply attempt_no_table; try discriminate;
        change (w_db (sent (SelectPlayer name age card) w2)) with (w_db w); now rewrite D).
  split; [reflexivity|]. split; [exact D|].
  cbn. now rewrite <- app_assoc.
Qed.

(** X13: a store without tables. When the file is new and both CREATE
    statements fail, every later statement fails too, for want of its table,
    whatever the engine would do otherwise; the session still runs to its
    end with status 0 and reports the usual balances, the file stays empty,
    and the error stream gets one diagnostic per statement: two for the
    schema, one for the insert, one for the funding update, and two for
    every spin. *)
Theorem session_without_tables (name : string) (age : Z) (card : string)
        (turns : list (ascii * double)) (rest : list token) (w : world) :
  w_db w = empty_db ->
  w_faults w (w_calls w) = false ->
  w_faults w (1 + w_calls w) = true ->
  w_faults w (2 + w_calls w) = true ->
  no_quit turns ->
  exists w',
    main (session name age card turns rest) w = (Ok 0%Z, w') /\
    w_db w' = empty_db /\
    w_cerr w'
    = w_cerr w ++ diag_exec ++ diag_exec ++ diag_add ++ diag_update
      ++ flat_map (fun _ => diag_update ++ diag_history) turns /\
    reported (w_cout w') = reported (w_cout w) ++ running 100 (map snd turns).
Proof.
  intros D F0 F1 F2 Hq. exists (finished name age card turns w).
  split; [now apply main_eq|]. split; [|split; [|apply finished_reported]].
  - unfold finished. cbn [w_db wrote]. apply spun_all_no_table.
    apply logged_no_table. rewrite opened_failed by assumption. exact D.
  - unfold finished. cbn [w_cerr wrote].
    set (w0 := wrote prompt_identity (opened w)).
    assert (D0 : w_db w0 = empty_db)
      by (unfold w0; rewrite opened_failed by assumption; exact D).
    destruct (logged_no_table name age card w0 D0) as (Ei & Dl & Cl).
    rewrite Ei.
    rewrite (proj2 (spun_all_no_table (-1) 100 turns _ Dl)), Cl.
    unfold w0. rewrite opened_failed by assumption. cbn [w_cerr wrote complained sent traced called].
    now rewrite <- !app_assoc.
Qed.

(** Alice on a new file whose schema cannot be created, one spin of 10. *)
Lemma session_without_tables_witness :
  fails_at 1 0 || fails_at 2 0 = false /\
  fails_at 1 1 || fails_at 2 1 = true /\
  fails_at 1 2 || fails_at 2 2 = true /\
  no_quit [("p"%char, 10%float)] /\
  exists w',
    main [TStr "Alice"; TInt 30; TStr "1111"; TChar "p"; TDouble 10; TChar "q"]
         (boot empty_db (fun n => fails_at 1 n || fails_at 2 n) (fun _ => 0%Z))
    = (Ok 0%Z, w') /\
    w_db w' = empty_db /\
    reported (w_cout w') = [90%float] /\
    length (w_cerr w') = 14%nat.
Proof.
  assert (Hq : no_quit [("p"%char, 10%float)]) by (repeat constructor).
  repeat (split; [reflexivity|]). split; [exact Hq|].
  destruct (@session_without_tables "Alice" 30 "1111" _ []
              (boot empty_db (fun n => fails_at 1 n || fails_at 2 n) (fun _ => 0%Z))
              eq_refl eq_refl eq_refl eq_refl Hq)
    as (w' & E & D & C & P).
  exists w'. split; [exact E|]. split; [exact D|]. split; [exact P|].
  rewrite C. reflexivity.
Defined.
